(** * Prerequisite parser and reverse-dependency graph builder of the
    AUC course-catalog scraper (parse_all_courses.py and
    add_reverse_prerequisites.py), shallowly embedded.

    Python text is modelled as a list of 8-bit characters (code points
    U+0000..U+00FF); Python regular expressions are modelled by a
    backtracking matcher with the priorities of Python's [re] module. *)

From Stdlib Require Import Ascii String List Bool Arith Lia DecimalString Sorted Permutation.
Import ListNotations.
Open Scope bool_scope.
Set Warnings "-register-all".

Definition pystr := list ascii.

(** A string literal as a [pystr]. *)
Definition s (x : string) : pystr := list_ascii_of_string x.

Definition chr (n : nat) : ascii := ascii_of_nat n.

Definition str_eqb (a b : pystr) : bool :=
  if list_eq_dec ascii_dec a b then true else false.

(** ** Character classes of Python's [str] and [re] (Unicode mode) *)

(** [str.isspace] and regex [\s] on U+0000..U+00FF. *)
Definition is_space (c : ascii) : bool :=
  let n := nat_of_ascii c in
  ((9 <=? n) && (n <=? 13)) || ((28 <=? n) && (n <=? 32))
  || (n =? 133) || (n =? 160).

(** Regex [\d]: the decimal digits of U+0000..U+00FF are the ASCII ones. *)
Definition is_digit (c : ascii) : bool :=
  let n := nat_of_ascii c in (48 <=? n) && (n <=? 57).

(** Regex class [[A-Z]]. *)
Definition is_upper (c : ascii) : bool :=
  let n := nat_of_ascii c in (65 <=? n) && (n <=? 90).

(** Regex word character ([\w], used by [\b]): [str.isalnum] or ['_']. *)
Definition is_word (c : ascii) : bool :=
  let n := nat_of_ascii c in
  ((48 <=? n) && (n <=? 57)) || ((65 <=? n) && (n <=? 90))
  || ((97 <=? n) && (n <=? 122)) || (n =? 95)
  || (n =? 170) || (n =? 178) || (n =? 179) || (n =? 181) || (n =? 185)
  || (n =? 186) || ((188 <=? n) && (n <=? 190))
  || ((192 <=? n) && (n <=? 255) && negb (n =? 215) && negb (n =? 247)).

(** [str.lower] on one character. *)
Definition lower_char (c : ascii) : ascii :=
  let n := nat_of_ascii c in
  if ((65 <=? n) && (n <=? 90)) || ((192 <=? n) && (n <=? 222) && negb (n =? 215))
  then chr (n + 32) else c.

Definition lower (t : pystr) : pystr := map lower_char t.

(** ** Python string methods *)

Fixpoint lstrip_by (p : ascii -> bool) (t : pystr) : pystr :=
  match t with
  | [] => []
  | c :: r => if p c then lstrip_by p r else t
  end.

Definition strip_by (p : ascii -> bool) (t : pystr) : pystr :=
  rev (lstrip_by p (rev (lstrip_by p t))).

(** [t.strip()] *)
Definition strip (t : pystr) : pystr := strip_by is_space t.

(** [t.strip(' ,.')] *)
Definition strip_punct (t : pystr) : pystr :=
  strip_by (fun c => Ascii.eqb c " " || Ascii.eqb c "," || Ascii.eqb c ".") t.

Fixpoint startswith (pre t : pystr) : bool :=
  match pre, t with
  | [], _ => true
  | c :: pre', d :: t' => Ascii.eqb c d && startswith pre' t'
  | _ :: _, [] => false
  end.

(** [needle in t] *)
Fixpoint contains (needle t : pystr) : bool :=
  startswith needle t ||
  match t with
  | [] => false
  | _ :: t' => contains needle t'
  end.

(** [t.replace(old, new)] for a non-empty [old]. *)
Fixpoint replace_fuel (fuel : nat) (old new t : pystr) : pystr :=
  match fuel with
  | O => t
  | S f =>
    match t with
    | [] => []
    | c :: t' =>
      if startswith old t
      then new ++ replace_fuel f old new (skipn (length old) t)
      else c :: replace_fuel f old new t'
    end
  end.

Definition replace (old new t : pystr) : pystr :=
  replace_fuel (S (length t)) old new t.

(** [t[a:b]] for [0 <= a], [0 <= b]. *)
Definition slice (a b : nat) (t : pystr) : pystr := firstn (b - a) (skipn a t).

(** ** Regular expressions with Python's backtracking semantics *)

Inductive regex :=
| REmpty                         (* the empty pattern *)
| RChar (p : ascii -> bool)      (* one character satisfying [p] *)
| RSeq (r1 r2 : regex)
| RAlt (r1 r2 : regex)           (* [r1|r2], left alternative first *)
| RStar (r : regex)              (* greedy [r*] *)
| RLazyStar (r : regex)          (* lazy [r*?] *)
| RBol                           (* [^] without MULTILINE *)
| REol                           (* [$] without MULTILINE *)
| RWordB                         (* [\b] *)
| RGroup (n : nat) (r : regex).  (* capturing group number [n] *)

(** Captured spans, the most recent capture first. *)
Definition caps := list (nat * (nat * nat)).

Section Matcher.
Variable txt : pystr.

Definition char_at (i : nat) : option ascii := nth_error txt i.

Definition word_at (i : nat) : bool :=
  match char_at i with Some c => is_word c | None => false end.

(** [mt r k i cs]: match [r] at position [i], then run the continuation
    [k]; the first success in backtracking order is returned. *)
Fixpoint mt (r : regex) (k : nat -> caps -> option (nat * caps))
         (i : nat) (cs : caps) {struct r} : option (nat * caps) :=
  match r with
  | REmpty => k i cs
  | RChar p =>
    match char_at i with
    | Some c => if p c then k (S i) cs else None
    | None => None
    end
  | RSeq r1 r2 => mt r1 (fun j cs' => mt r2 k j cs') i cs
  | RAlt r1 r2 =>
    match mt r1 k i cs with
    | Some x => Some x
    | None => mt r2 k i cs
    end
  | RStar r1 =>
    (fix loop (fuel : nat) (i : nat) (cs : caps) {struct fuel} :=
       match fuel with
       | O => k i cs
       | S f =>
         match mt r1 (fun j cs' => if i <? j then loop f j cs' else None) i cs with
         | Some x => Some x
         | None => k i cs
         end
       end) (S (length txt - i)) i cs
  | RLazyStar r1 =>
    (fix loop (fuel : nat) (i : nat) (cs : caps) {struct fuel} :=
       match fuel with
       | O => k i cs
       | S f =>
         match k i cs with
         | Some x => Some x
         | None => mt r1 (fun j cs' => if i <? j then loop f j cs' else None) i cs
         end
       end) (S (length txt - i)) i cs
  | RBol => if i =? 0 then k i cs else None
  | REol =>
    if (i =? length txt)
       || ((S i =? length txt) && match char_at i with
                                   | Some c => Ascii.eqb c (chr 10)
                                   | None => false end)
    then k i cs else None
  | RWordB =>
    let before := match i with O => false | S i' => word_at i' end in
    if xorb before (word_at i) then k i cs else None
  | RGroup n r1 => mt r1 (fun j cs' => k j ((n, (i, j)) :: cs')) i cs
  end.

Definition mt_top (r : regex) (i : nat) : option (nat * caps) :=
  mt r (fun j cs => Some (j, cs)) i [].

(** [re.search] started at position [pos]: the leftmost match. *)
Fixpoint search_from (fuel : nat) (r : regex) (pos : nat)
  : option (nat * nat * caps) :=
  match mt_top r pos with
  | Some (j, cs) => Some (pos, j, cs)
  | None =>
    match fuel with
    | O => None
    | S f => if pos <? length txt then search_from f r (S pos) else None
    end
  end.

(** The successive non-overlapping matches scanned by [re.split],
    [re.sub] and [re.findall] (the patterns used never match the empty
    string). *)
Fixpoint all_matches (fuel : nat) (r : regex) (pos : nat)
  : list (nat * nat * caps) :=
  match fuel with
  | O => []
  | S f =>
    match search_from (length txt) r pos with
    | Some (a, b, cs) =>
      (a, b, cs) :: all_matches f r (if b =? a then S b else b)
    | None => []
    end
  end.

End Matcher.

Definition re_search (r : regex) (t : pystr) : option (nat * nat * caps) :=
  search_from t (length t) r 0.

Definition matches (r : regex) (t : pystr) : list (nat * nat * caps) :=
  all_matches t (S (length t)) r 0.

Fixpoint group (n : nat) (cs : caps) : option (nat * nat) :=
  match cs with
  | [] => None
  | (m, sp) :: cs' => if m =? n then Some sp else group n cs'
  end.

(** [m.group(n)] of a match of [t]. *)
Definition group_text (t : pystr) (n : nat) (m : nat * nat * caps) : pystr :=
  let '(a, b, cs) := m in
  if n =? 0 then slice a b t
  else match group n cs with Some (x, y) => slice x y t | None => [] end.

(** [re.findall(r, t)] for a pattern without groups. *)
Definition re_findall (r : regex) (t : pystr) : list pystr :=
  map (group_text t 0) (matches r t).

(** [re.split(r, t)] for a pattern without groups. *)
Definition re_split (r : regex) (t : pystr) : list pystr :=
  let fix go (ms : list (nat * nat * caps)) (last : nat) :=
    match ms with
    | [] => [skipn last t]
    | (a, b, _) :: ms' => slice last a t :: go ms' b
    end in
  go (matches r t) 0.

(** [re.sub(r, f, t)] with a replacement function threading a state [st]
    (a Python closure with [nonlocal] state). *)
Definition re_sub_st {St} (r : regex) (f : St -> nat * nat * caps -> pystr * St)
           (st : St) (t : pystr) : pystr * St :=
  let fix go (ms : list (nat * nat * caps)) (last : nat) (st : St) :=
    match ms with
    | [] => (skipn last t, st)
    | ((a, b, _) as m) :: ms' =>
      let '(rep, st') := f st m in
      let '(rest, st'') := go ms' b st' in
      (slice last a t ++ rep ++ rest, st'')
    end in
  go (matches r t) 0 st.

(** [re.sub(r, rep, t)] with a constant replacement string. *)
Definition re_sub (r : regex) (rep : pystr) (t : pystr) : pystr :=
  fst (re_sub_st r (fun (u : unit) _ => (rep, u)) tt t).

(** ** Pattern building blocks *)

Fixpoint rseq (rs : list regex) : regex :=
  match rs with
  | [] => REmpty
  | [r] => r
  | r :: rs' => RSeq r (rseq rs')
  end.

Definition rplus (r : regex) : regex := RSeq r (RStar r).
Definition ropt (r : regex) : regex := RAlt r REmpty.
Definition rrep (n : nat) (r : regex) : regex := rseq (repeat r n).

(** A literal, case-sensitive. *)
Definition lit (x : string) : regex :=
  rseq (map (fun c => RChar (fun d => Ascii.eqb c d)) (list_ascii_of_string x)).

(** A literal under [re.IGNORECASE]. *)
Definition lit_i (x : string) : regex :=
  rseq (map (fun c => RChar (fun d => Ascii.eqb (lower_char c) (lower_char d)))
            (list_ascii_of_string x)).

Definition sp : regex := RChar is_space.                (* \s *)
Definition dgt : regex := RChar is_digit.               (* \d *)
Definition upc : regex := RChar is_upper.               (* [A-Z] *)
Definition any_nl : regex := RChar (fun c => negb (Ascii.eqb c (chr 10))). (* . *)

(** ** The patterns of parse_all_courses.py and add_reverse_prerequisites.py *)

(** [COURSE_PATTERN = r'\b[A-Z]{4}\s*\d{4}\b'] *)
Definition COURSE_PATTERN : regex :=
  rseq [RWordB; rrep 4 upc; RStar sp; rrep 4 dgt; RWordB].

(** [r'\(\s*or\s+concurrent\s*\)'], IGNORECASE *)
Definition or_concurrent_pat : regex :=
  rseq [lit_i "("; RStar sp; lit_i "or"; rplus sp; lit_i "concurrent";
        RStar sp; lit_i ")"].

(** [r'\s+or\s+'], IGNORECASE *)
Definition or_pat : regex := rseq [rplus sp; lit_i "or"; rplus sp].

(** [r'\s+and\s+'], IGNORECASE *)
Definition and_pat : regex := rseq [rplus sp; lit_i "and"; rplus sp].

(** [r'\band\s+concurrent\b'], IGNORECASE *)
Definition and_concurrent_pat : regex :=
  rseq [RWordB; lit_i "and"; rplus sp; lit_i "concurrent"; RWordB].

(** [r'^Pre-requisites\s+or\s+concurrent:\s*'], IGNORECASE *)
Definition prereq_or_conc_label : regex :=
  rseq [RBol; lit_i "Pre-requisites"; rplus sp; lit_i "or"; rplus sp;
        lit_i "concurrent:"; RStar sp].

(** [r'^Prerequisite:\s*'], IGNORECASE *)
Definition prerequisite_label : regex :=
  rseq [RBol; lit_i "Prerequisite:"; RStar sp].

(** [group_pattern = r'\([^()]+\)'] *)
Definition group_pattern : regex :=
  rseq [lit "(";
        rplus (RChar (fun c => negb (Ascii.eqb c "(" || Ascii.eqb c ")")));
        lit ")"].

(** [r'(,?\s*and\s+concurrent\s+with|,?\s*and\s+Concurrent\s+with|Must be taken concurrently with)'],
    IGNORECASE *)
Definition concurrent_split_pat : regex :=
  RGroup 1
    (RAlt (rseq [ropt (lit_i ","); RStar sp; lit_i "and"; rplus sp;
                 lit_i "concurrent"; rplus sp; lit_i "with"])
      (RAlt (rseq [ropt (lit_i ","); RStar sp; lit_i "and"; rplus sp;
                   lit_i "Concurrent"; rplus sp; lit_i "with"])
            (lit_i "Must be taken concurrently with"))).

(** [r'for\s+(.+?)(?:\.|$)'], IGNORECASE *)
Definition note_pat : regex :=
  rseq [lit_i "for"; rplus sp; RGroup 1 (RSeq any_nl (RLazyStar any_nl));
        RAlt (lit_i ".") REol].

(** [r'([A-Z]{4})\s*(\d{4})'] of [extract_course_code_from_title] *)
Definition title_code_pat : regex :=
  rseq [RGroup 1 (rrep 4 upc); RStar sp; RGroup 2 (rrep 4 dgt)].

(** ** The AST: the dictionaries built by [PrerequisiteParser]

    A [course] dictionary built by [_parse_concurrent] has no
    [is_concurrent] and no [is_optional] key: an absent key is [None]. *)
Inductive node :=
| NCourse (course_code : pystr) (is_concurrent : option bool) (is_optional : option bool)
| NAnd (children : list node)
| NOr (children : list node)
| NGroup (expression : option node)
| NConcurrent (course : node) (note : pystr)
| NText (condition : pystr) (category : pystr).

(** The exceptions raised on the paths modelled here. *)
Inductive exn := RecursionError | AttributeError | UnboundLocalError.

(** A computation that returns a value or raises. *)
Inductive py (A : Type) := Ok (a : A) | Raise (e : exn).
Arguments Ok {A} a.
Arguments Raise {A} e.

Definition bind {A B} (m : py A) (f : A -> py B) : py B :=
  match m with Ok a => f a | Raise e => Raise e end.

Notation "'let*' x := m 'in' k" := (bind m (fun x => k))
  (at level 200, x name, m at level 100, k at level 200).

Fixpoint filter_some {A B} (f : A -> option B) (l : list A) : list B :=
  match l with
  | [] => []
  | x :: l' => match f x with
               | Some y => y :: filter_some f l'
               | None => filter_some f l'
               end
  end.

(** [self.text_conditions], in insertion order. *)
Definition text_conditions : list (pystr * list pystr) :=
  [(s "standing", map s ["senior standing"; "junior standing"; "sophomore standing";
                         "freshman standing"; "standing"]%string);
   (s "approval", map s ["instructor approval"; "consent of instructor"; "approval";
                         "permission"; "instructor consent"]%string);
   (s "exemption", map s ["exemption"%string]);
   (s "preparation", map s ["preparation course"; "college level"]%string)].

(** The category loop of [_parse_atomic]: for each category in order,
    the inner keyword loop sets [category] and [break]s out of the
    keyword loop only; the outer loop goes on. *)
Definition classify (text_lower : pystr) : pystr :=
  fold_left (fun category '(cat, keywords) =>
               if existsb (fun keyword => contains keyword text_lower) keywords
               then cat else category)
            text_conditions (s "other").

(** [PrerequisiteParser._parse_atomic] *)
Definition parse_atomic (text : pystr) : option node :=
  match text with
  | [] => None
  | _ =>
    let text := strip_punct text in
    let '(is_concurrent, text) :=
      match re_search or_concurrent_pat text with
      | Some (a, b, _) => (true, strip (firstn a text) ++ strip (skipn b text))
      | None => (false, text)
      end in
    match re_search COURSE_PATTERN text with
    | Some m =>
      let course_code := replace (s " ") [] (group_text text 0 m) in
      Some (NCourse course_code (Some is_concurrent) (Some false))
    | None =>
      let category := classify (lower text) in
      if negb (str_eqb category (s "other")) || (5 <? length text)
      then Some (NText text category)
      else None
    end
  end.

(** [PrerequisiteParser._parse_or_expression] *)
Definition parse_or_expression (text : pystr) : option node :=
  match text with
  | [] => None
  | _ =>
    let or_parts := re_split or_pat text in
    let fallback := parse_atomic text in
    if 1 <? length or_parts then
      match filter_some (fun part => parse_atomic (strip part)) or_parts with
      | [child] => Some child
      | [] => fallback
      | children => Some (NOr children)
      end
    else fallback
  end.

(** [PrerequisiteParser._split_on_and] *)
Definition split_on_and (text : pystr) : list pystr :=
  let text := re_sub and_concurrent_pat (s "~~~CONCURRENT~~~") text in
  let parts := re_split and_pat text in
  map (replace (s "~~~CONCURRENT~~~") (s "and concurrent")) parts.

(** The label stripping at the start of [_parse_expression]. *)
Definition normalize (text : pystr) : pystr :=
  let text := strip text in
  let text := re_sub prereq_or_conc_label [] text in
  re_sub prerequisite_label [] text.

(** [str(n)] *)
Definition nat_str (n : nat) : pystr :=
  list_ascii_of_string (NilEmpty.string_of_uint (Nat.to_uint n)).

Fixpoint assoc (k : pystr) (m : list (pystr * pystr)) : option pystr :=
  match m with
  | [] => None
  | (k', v) :: m' => if str_eqb k k' then Some v else assoc k m'
  end.

(** [placeholder_map[placeholder] = group_text] *)
Definition dict_set (k v : pystr) (m : list (pystr * pystr)) : list (pystr * pystr) :=
  (k, v) :: m.

(** The nested [replace_group] of [_parse_with_groups]; the state is
    [(placeholder_map, counter)]. *)
Definition replace_group (t : pystr) (st : list (pystr * pystr) * nat)
           (m : nat * nat * caps) : pystr * (list (pystr * pystr) * nat) :=
  let '(placeholder_map, counter) := st in
  let '(a, b, _) := m in
  let group_text := slice (S a) (b - 1) t in
  let placeholder := s "~~~GROUP" ++ nat_str counter ++ s "~~~" in
  (placeholder, (dict_set placeholder group_text placeholder_map, S counter)).

(** The [for child in ...] loop of [_replace_placeholders]. *)
Fixpoint py_map {A B} (f : A -> py B) (l : list A) : py (list B) :=
  match l with
  | [] => Ok []
  | x :: l' => let* y := f x in let* r := py_map f l' in Ok (y :: r)
  end.

(** [PrerequisiteParser._replace_placeholders], for the parse function
    [pe] of the enclosing call. A child is never mapped to [None], so the
    [if new_child] filter keeps every child. *)
Section Placeholders.
Variable pe : pystr -> py (option node).
Variable placeholder_map : list (pystr * pystr).

Fixpoint rp_node (n : node) : py node :=
  match n with
  | NCourse code _ _ =>
    if startswith (s "~~~GROUP") code then
      match assoc code placeholder_map with
      | Some group_text => let* group_node := pe group_text in Ok (NGroup group_node)
      | None => Ok n
      end
    else Ok n
  | NAnd children => let* cs := py_map rp_node children in Ok (NAnd cs)
  | NOr children => let* cs := py_map rp_node children in Ok (NOr cs)
  | NGroup e =>
    match e with
    | None => Ok (NGroup None)
    | Some e0 => let* e' := rp_node e0 in Ok (NGroup (Some e'))
    end
  | _ => Ok n
  end.

Definition replace_placeholders (n : option node) : py (option node) :=
  match n with
  | None => Ok None
  | Some n0 => let* n' := rp_node n0 in Ok (Some n')
  end.
End Placeholders.

(** [PrerequisiteParser._parse_expression] together with
    [_parse_with_groups]. [fuel] bounds the Python recursion depth: when it
    runs out the call raises [RecursionError] (the text ["()"] contains
    both parentheses but no group, so the Python recursion never ends). *)
Fixpoint parse_expression (fuel : nat) (text : pystr) : py (option node) :=
  match fuel with
  | O => Raise RecursionError
  | S f =>
    match text with
    | [] => Ok None
    | _ =>
      let text := normalize text in
      if contains (s "(") text && contains (s ")") text then
        (* _parse_with_groups *)
        let '(modified_text, (placeholder_map, _)) :=
          re_sub_st group_pattern (replace_group text) ([], 0) text in
        let* result := parse_expression f modified_text in
        replace_placeholders (parse_expression f) placeholder_map result
      else
        let and_parts := split_on_and text in
        let fallback := Ok (parse_or_expression text) in
        if 1 <? length and_parts then
          match filter_some (fun part => parse_or_expression (strip part)) and_parts with
          | [child] => Ok (Some child)
          | [] => fallback
          | children => Ok (Some (NAnd children))
          end
        else fallback
    end
  end.

(** [c.replace(" ", "")] on a matched course code. *)
Definition course_leaf (c : pystr) : node := NCourse (replace (s " ") [] c) None None.

(** The [note] computed by [_parse_concurrent]. *)
Definition concurrent_note (text : pystr) : pystr :=
  if contains (s "for") (lower text) then
    match re_search note_pat text with
    | Some m => strip (group_text text 1 m)
    | None => []
    end
  else [].

(** [PrerequisiteParser._parse_concurrent] *)
Definition parse_concurrent (text : pystr) : option node :=
  match text with
  | [] => None
  | _ =>
    let courses := re_findall COURSE_PATTERN text in
    let note := concurrent_note text in
    match courses with
    | [] => None
    | [c] => Some (NConcurrent (course_leaf c) note)
    | _ => Some (NConcurrent (NOr (map course_leaf courses)) note)
    end
  end.

(** [PrerequisiteParser._split_prereq_and_concurrent] *)
Definition split_prereq_and_concurrent (fuel : nat) (text : pystr)
  : py (option node * option node) :=
  match text with
  | [] => Ok (None, None)
  | _ =>
    let text_lower := lower text in
    if startswith (s "concurrent") text_lower
       || startswith (s "prerequisite: concurrent") text_lower
    then Ok (None, parse_concurrent text)
    else
      match re_search concurrent_split_pat text with
      | Some (a, b, _) =>
        let prereq_part := strip (firstn a text) in
        let concurrent_part := strip (skipn b text) in
        let* prereq_node :=
          match prereq_part with
          | [] => Ok None
          | _ => parse_expression fuel prereq_part
          end in
        let concurrent_node :=
          match concurrent_part with
          | [] => None
          | _ => parse_concurrent concurrent_part
          end in
        Ok (prereq_node, concurrent_node)
      | None =>
        let* prereq_node := parse_expression fuel text in Ok (prereq_node, None)
      end
  end.

(** The [PrerequisiteAST] dictionary; [parse_error] is the key that only
    the error path of [main] sets ([None]: no such key). *)
Record prereq_ast := mk_ast {
  prerequisites : option node;
  corequisites : option node;
  raw_text : pystr;
  parse_error : option exn
}.

(** [PrerequisiteParser.parse] *)
Definition parse (fuel : nat) (prerequisites_text concurrent_text : pystr)
  : py prereq_ast :=
  match prerequisites_text, concurrent_text with
  | [], [] => Ok (mk_ast None None [] None)
  | _, _ =>
    let full_text := strip prerequisites_text in
    let raw_text := full_text in
    let* nodes := split_prereq_and_concurrent fuel full_text in
    let '(prereq_node, concurrent_node) := nodes in
    match concurrent_text with
    | [] => Ok (mk_ast prereq_node concurrent_node raw_text None)
    | _ =>
      let raw_text := raw_text ++ s " | Concurrent: " ++ concurrent_text in
      let concurrent_node :=
        match parse_concurrent concurrent_text with
        | Some concurrent_from_field =>
          match concurrent_node with
          | Some cn => Some (NAnd [cn; concurrent_from_field])
          | None => Some concurrent_from_field
          end
        | None => concurrent_node
        end in
      Ok (mk_ast prereq_node concurrent_node raw_text None)
    end
  end.

(** ** parse_all_courses.main: the batch loop

    A course record is a JSON object; only string values and [null] are
    distinguished here. *)
Inductive jval := JStr (x : pystr) | JNull | JNum (n : nat).

Definition jobj := list (pystr * jval).

(** [course.get(key, default)] *)
Fixpoint jget (key : pystr) (o : jobj) (default : jval) : jval :=
  match o with
  | [] => default
  | (k, v) :: o' => if str_eqb key k then v else jget key o' default
  end.

(** [v.strip()]: only a string has a [strip] method. *)
Definition py_strip (v : jval) : py pystr :=
  match v with
  | JStr x => Ok (strip x)
  | _ => Raise AttributeError
  end.

(** The [try] body for one course. The local [prereq_text] of [main] is
    [None] while unbound; the first component is its value after the
    body ran (or raised). *)
Definition process_course (fuel : nat) (course : jobj) (prereq_text : option pystr)
  : option pystr * py prereq_ast :=
  match py_strip (jget (s "prerequisites") course (JStr [])) with
  | Raise e => (prereq_text, Raise e)
  | Ok p =>
    (Some p,
     let* concurrent_text := py_strip (jget (s "concurrent") course (JStr [])) in
     parse fuel p concurrent_text)
  end.

(** [for i, course in enumerate(courses, 1): try: ... except Exception as e: ...];
    [course["prerequisite_ast"] = ast] is modelled by pairing the course
    with its AST. The [except] block reads [prereq_text], which raises
    [UnboundLocalError] when the name was never bound. *)
Fixpoint main_loop (fuel : nat) (courses : list jobj) (prereq_text : option pystr)
         (parsed_courses : list (jobj * prereq_ast)) : py (list (jobj * prereq_ast)) :=
  match courses with
  | [] => Ok parsed_courses
  | course :: rest =>
    let '(prereq_text, outcome) := process_course fuel course prereq_text in
    match outcome with
    | Ok ast => main_loop fuel rest prereq_text (parsed_courses ++ [(course, ast)])
    | Raise e =>
      match prereq_text with
      | None => Raise UnboundLocalError
      | Some p =>
        main_loop fuel rest prereq_text
                  (parsed_courses ++ [(course, mk_ast None None p (Some e))])
      end
    end
  end.

Definition parse_all (fuel : nat) (courses : list jobj) : py (list (jobj * prereq_ast)) :=
  main_loop fuel courses None [].

(** ** add_reverse_prerequisites.py: the graph builder *)

(** [extract_course_code_from_title] *)
Definition extract_course_code_from_title (title : pystr) : pystr :=
  match re_search title_code_pat title with
  | Some m => group_text title 1 m ++ group_text title 2 m
  | None => []
  end.

(** A Python [set] of strings: a duplicate-free list in insertion order. *)
Definition pyset := list pystr.

Definition set_add (x : pystr) (st : pyset) : pyset :=
  if existsb (str_eqb x) st then st else st ++ [x].

(** [st.update(l)] *)
Definition set_update (st : pyset) (l : pyset) : pyset :=
  fold_left (fun acc x => set_add x acc) l st.

(** [get_all_prerequisite_courses(node, include_corequisites)] *)
Fixpoint collect (include_corequisites : bool) (n : node) : pyset :=
  match n with
  | NCourse code _ _ => set_add code []
  | NAnd children | NOr children =>
    fold_left (fun courses child => set_update courses (collect include_corequisites child))
              children []
  | NGroup e =>
    match e with
    | Some e0 => collect include_corequisites e0
    | None => []
    end
  | NConcurrent course _ => if include_corequisites then collect include_corequisites course else []
  | NText _ _ => []
  end.

Definition get_all_prerequisite_courses (n : option node) (include_corequisites : bool) : pyset :=
  match n with
  | Some n0 => collect include_corequisites n0
  | None => []
  end.

(** A course record of all_courses.json as read by this script; an
    absent [prerequisite_ast] is [None] ([course.get("prerequisite_ast", {})]). *)
Record course_rec := mk_course {
  title : pystr;
  prerequisite_ast : option prereq_ast
}.

Definition ast_prerequisites (c : course_rec) : option node :=
  match prerequisite_ast c with Some a => prerequisites a | None => None end.

Definition ast_corequisites (c : course_rec) : option node :=
  match prerequisite_ast c with Some a => corequisites a | None => None end.

(** A [Dict[str, Set[str]]], keys in insertion order. *)
Definition revmap := list (pystr * pyset).

(** [if k not in m: m[k] = set()]; [m[k].add(v)] *)
Fixpoint rm_add (k v : pystr) (m : revmap) : revmap :=
  match m with
  | [] => [(k, set_add v [])]
  | (k', st) :: m' => if str_eqb k k' then (k', set_add v st) :: m' else (k', st) :: rm_add k v m'
  end.

(** [m.get(k, set())] *)
Fixpoint rm_get (k : pystr) (m : revmap) : pyset :=
  match m with
  | [] => []
  | (k', st) :: m' => if str_eqb k k' then st else rm_get k m'
  end.

(** The common loop of [build_reverse_prerequisite_map] and
    [build_reverse_corequisite_map]. *)
Definition build_reverse_map (tree : course_rec -> option node) (include_corequisites : bool)
           (courses : list course_rec) : revmap :=
  fold_left
    (fun reverse_map course =>
       let course_code := extract_course_code_from_title (title course) in
       match course_code with
       | [] => reverse_map
       | _ =>
         fold_left
           (fun m code => match code with [] => m | _ => rm_add code course_code m end)
           (get_all_prerequisite_courses (tree course) include_corequisites)
           reverse_map
       end)
    courses [].

Definition build_reverse_prerequisite_map (courses : list course_rec) : revmap :=
  build_reverse_map ast_prerequisites false courses.

Definition build_reverse_corequisite_map (courses : list course_rec) : revmap :=
  build_reverse_map ast_corequisites true courses.

(** Python's [<] on strings: code-point lexicographic order. *)
Fixpoint str_ltb (a b : pystr) : bool :=
  match a, b with
  | [], [] => false
  | [], _ :: _ => true
  | _ :: _, [] => false
  | x :: a', y :: b' =>
    let n := nat_of_ascii x in let m := nat_of_ascii y in
    (n <? m) || ((n =? m) && str_ltb a' b')
  end.

Fixpoint insert_sorted (x : pystr) (l : list pystr) : list pystr :=
  match l with
  | [] => [x]
  | y :: l' => if str_ltb y x then y :: insert_sorted x l' else x :: l
  end.

(** [sorted(list(st))] *)
Definition sorted (st : pyset) : list pystr := fold_right insert_sorted [] st.

Record enhanced := mk_enhanced {
  base : course_rec;
  is_prerequisite_for : list pystr;
  is_corequisite_for : list pystr
}.

(** The loop of [main] that attaches the two reverse-edge fields. *)
Definition enhance (prereq_reverse_map coreq_reverse_map : revmap) (course : course_rec) : enhanced :=
  let course_code := extract_course_code_from_title (title course) in
  mk_enhanced course (sorted (rm_get course_code prereq_reverse_map))
                     (sorted (rm_get course_code coreq_reverse_map)).

Definition add_reverse_fields (courses : list course_rec) : list enhanced :=
  let prereq_reverse_map := build_reverse_prerequisite_map courses in
  let coreq_reverse_map := build_reverse_corequisite_map courses in
  map (enhance prereq_reverse_map coreq_reverse_map) courses.

(** * Properties *)

(** ** Evaluations at concrete inputs *)

(** The tree the spec gives for ["CSCE 1001 and (CSCE 1101 or CSCE 2303)"]. *)
Definition c1_spec_tree : node :=
  NAnd [NCourse (s "CSCE1001") (Some false) (Some false);
        NGroup (Some (NOr [NCourse (s "CSCE1101") (Some false) (Some false);
                           NCourse (s "CSCE2303") (Some false) (Some false)]))].

(** C1 (code_bug): on ["CSCE 1001 and (CSCE 1101 or CSCE 2303)"] the
    placeholder ["~~~GROUP0~~~"] is classified by [_parse_atomic] as a
    [text_condition] of category ["other"], while [_replace_placeholders]
    only looks for placeholders in [course] leaves: the group is never
    reinserted, and the result is not the tree of the spec. *)
Theorem C1_group_placeholder_left_as_text :
  parse_expression 1000 (s "CSCE 1001 and (CSCE 1101 or CSCE 2303)")
  = Ok (Some (NAnd [NCourse (s "CSCE1001") (Some false) (Some false);
                    NText (s "~~~GROUP0~~~") (s "other")]))
  /\ parse_expression 1000 (s "CSCE 1001 and (CSCE 1101 or CSCE 2303)")
     <> Ok (Some c1_spec_tree).
Proof.
  split.
  - vm_compute. reflexivity.
  - vm_compute. discriminate.
Qed.

(** C4 (code_bug): a fragment that triggers both a [standing] and an
    [approval] phrase is classified [approval], the later category: the
    [break] leaves only the keyword loop, so the last matching category
    wins. *)
Theorem C4_last_category_wins :
  parse_atomic (s "Senior standing with instructor approval")
  = Some (NText (s "Senior standing with instructor approval") (s "approval")).
Proof. vm_compute. reflexivity. Qed.

(** C9 (code_bug): the [course] leaf built by [_parse_concurrent] carries
    only [course_code]: it has neither [is_concurrent] nor [is_optional]. *)
Theorem C9_concurrent_leaf_lacks_flags :
  parse 1000 (s "Concurrent with CSCE 4301") []
  = Ok (mk_ast None (Some (NConcurrent (NCourse (s "CSCE4301") None None) []))
               (s "Concurrent with CSCE 4301") None).
Proof. vm_compute. reflexivity. Qed.

(** C3 (counterexample): in ["a and b"] both conjunction segments give no
    node, yet the expression is not [None]: the whole text falls back to
    the disjunction parser and becomes a [text_condition]. *)
Lemma C3_counterexample :
  let t := s "a and b" in
  1 < length (split_on_and (normalize t))
  /\ filter_some (fun part => parse_or_expression (strip part)) (split_on_and (normalize t)) = []
  /\ parse_expression 10 t = Ok (Some (NText t (s "other"))).
Proof. vm_compute. repeat split; auto. Qed.

(** C6 (counterexample): the reason of a trailing ["for ..."] clause is cut
    at its first period. *)
Lemma C6_counterexample :
  parse_concurrent (s "CSCE 4301 for Ph.D. students")
  = Some (NConcurrent (NCourse (s "CSCE4301") None None) (s "Ph"))
  /\ s "Ph" <> s "Ph.D. students".
Proof. split; [vm_compute; reflexivity | discriminate]. Qed.

(** C8 (counterexample): the run of two spaces is not collapsed. *)
Lemma C8_counterexample :
  normalize (s "CSCE  1001") = s "CSCE  1001" /\ s "CSCE  1001" <> s "CSCE 1001".
Proof. split; [vm_compute; reflexivity | discriminate]. Qed.

(** ** Sets, maps and sorting *)

Lemma str_eqb_true (a b : pystr) : str_eqb a b = true <-> a = b.
Proof. unfold str_eqb. destruct (list_eq_dec ascii_dec a b); split; congruence. Qed.

Lemma str_eqb_refl (a : pystr) : str_eqb a a = true.
Proof. apply str_eqb_true. reflexivity. Qed.

Lemma str_eqb_false (a b : pystr) : str_eqb a b = false <-> a <> b.
Proof.
  rewrite <- str_eqb_true. destruct (str_eqb a b); split; congruence.
Qed.

Lemma in_set_add x y st : In x (set_add y st) <-> x = y \/ In x st.
Proof.
  unfold set_add. destruct (existsb (str_eqb y) st) eqn:E.
  - apply existsb_exists in E as [z [Hz Hyz]]. apply str_eqb_true in Hyz. subst z.
    split; [auto | intros [->|H]; auto].
  - rewrite in_app_iff. simpl. split; intros [H|H]; intuition.
Qed.

Lemma in_set_update x st l : In x (set_update st l) <-> In x st \/ In x l.
Proof.
  unfold set_update. revert st. induction l as [|y l IH]; intro st; simpl.
  - intuition.
  - rewrite IH, in_set_add. intuition.
Qed.

Lemma in_rm_add x k k' v m :
  In x (rm_get k (rm_add k' v m)) <-> (k = k' /\ x = v) \/ In x (rm_get k m).
Proof.
  induction m as [|[k0 st] m IH]; simpl.
  - destruct (str_eqb k k') eqn:E; simpl.
    + apply str_eqb_true in E. subst. intuition.
    + apply str_eqb_false in E.
      split; [intros [] | intros [[? ?]|[]]; congruence].
  - destruct (str_eqb k' k0) eqn:E1; simpl.
    + apply str_eqb_true in E1. subst k0.
      destruct (str_eqb k k') eqn:E2.
      * apply str_eqb_true in E2. subst. rewrite in_set_add. intuition.
      * apply str_eqb_false in E2.
        split; [auto | intros [[? ?]|?]; [congruence|auto]].
    + apply str_eqb_false in E1.
      destruct (str_eqb k k0) eqn:E2.
      * apply str_eqb_true in E2. subst.
        split; [auto | intros [[? ?]|?]; [congruence|auto]].
      * exact IH.
Qed.

Lemma in_insert_sorted x y l : In x (insert_sorted y l) <-> x = y \/ In x l.
Proof.
  induction l as [|z l IH]; simpl.
  - intuition.
  - destruct (str_ltb z y); simpl.
    + rewrite IH. intuition.
    + intuition.
Qed.

Lemma in_sorted x l : In x (sorted l) <-> In x l.
Proof.
  induction l as [|y l IH]; simpl.
  - reflexivity.
  - rewrite in_insert_sorted, IH. intuition.
Qed.

(** ** The graph builder *)

Definition code_of (c : course_rec) : pystr := extract_course_code_from_title (title c).

(** The course codes collected from a course's [prerequisites] tree. *)
Definition prereq_codes_of (c : course_rec) : pyset :=
  get_all_prerequisite_courses (ast_prerequisites c) false.

Lemma in_add_edges x k cc l m :
  In x (rm_get k (fold_left (fun m code => match code with [] => m | _ => rm_add code cc m end) l m))
  <-> In x (rm_get k m) \/ (k <> [] /\ In k l /\ x = cc).
Proof.
  revert m. induction l as [|code l IH]; intro m; simpl.
  - intuition.
  - rewrite IH. destruct code as [|a code].
    + split; [intros [H|H]; intuition | intros [H|[Hk [[Hc|Hc] Hx]]]; subst; intuition].
    + rewrite in_rm_add. split.
      * intros [[[Hk Hx]|H]|[Hk [Hin Hx]]]; subst; intuition discriminate.
      * intros [H|[Hk [[Hc|Hc] Hx]]]; subst; intuition.
Qed.

Lemma in_build_reverse_map_acc x k tree inc courses m :
  In x (rm_get k (fold_left
    (fun reverse_map course =>
       let course_code := extract_course_code_from_title (title course) in
       match course_code with
       | [] => reverse_map
       | _ =>
         fold_left
           (fun m code => match code with [] => m | _ => rm_add code course_code m end)
           (get_all_prerequisite_courses (tree course) inc)
           reverse_map
       end) courses m))
  <-> In x (rm_get k m)
      \/ (k <> [] /\ x <> []
          /\ exists c, In c courses /\ code_of c = x
                      /\ In k (get_all_prerequisite_courses (tree c) inc)).
Proof.
  revert m. induction courses as [|c courses IH]; intro m; simpl.
  - split; [intuition | intros [H|[_ [_ [c [[] _]]]]]; exact H].
  - rewrite IH. unfold code_of at 1.
    destruct (extract_course_code_from_title (title c)) as [|a cc] eqn:Ec.
    + split.
      * intros [H|[Hk [Hx [c' [Hin [Hc' Hk']]]]]]; [now left|].
        right. repeat split; auto. exists c'. auto.
      * intros [H|[Hk [Hx [c' [[<-|Hin] [Hc' Hk']]]]]]; [now left| |].
        -- unfold code_of in Hc'. rewrite Ec in Hc'. subst x. congruence.
        -- right. repeat split; auto. exists c'. auto.
    + rewrite in_add_edges. split.
      * intros [[H|[Hk [Hin Hx]]]|[Hk [Hx [c' [Hin [Hc' Hk']]]]]].
        -- now left.
        -- right. subst x. repeat split; auto; [discriminate|].
           exists c. unfold code_of. rewrite Ec. auto.
        -- right. repeat split; auto. exists c'. auto.
      * intros [H|[Hk [Hx [c' [[<-|Hin] [Hc' Hk']]]]]].
        -- now left; left.
        -- left. right. unfold code_of in Hc'. rewrite Ec in Hc'. auto.
        -- right. repeat split; auto. exists c'. auto.
Qed.

Lemma in_build_reverse_map x k tree inc courses :
  In x (rm_get k (build_reverse_map tree inc courses))
  <-> k <> [] /\ x <> []
      /\ exists c, In c courses /\ code_of c = x
                  /\ In k (get_all_prerequisite_courses (tree c) inc).
Proof.
  unfold build_reverse_map. rewrite in_build_reverse_map_acc. simpl. intuition.
Qed.

Lemma in_collect_children b x l acc :
  In x (fold_left (fun courses child => set_update courses (collect b child)) l acc)
  <-> In x acc \/ exists child, In child l /\ In x (collect b child).
Proof.
  revert acc. induction l as [|ch l IH]; intro acc; simpl.
  - split; [auto | intros [H|[ch [[] _]]]; exact H].
  - rewrite IH, in_set_update. split.
    + intros [[H|H]|[ch' [Hin Hx]]]; [now left | right; eauto | right; eauto].
    + intros [H|[ch' [[<-|Hin] Hx]]]; [now left; left | now left; right | right; eauto].
Qed.

(** The [is_prerequisite_for] field attached to a record [P]. *)
Lemma in_is_prerequisite_for (catalog : list course_rec) (C P : course_rec) :
  code_of P <> [] -> code_of C <> [] ->
  (In (code_of C) (is_prerequisite_for
         (enhance (build_reverse_prerequisite_map catalog)
                  (build_reverse_corequisite_map catalog) P))
   <-> exists C', In C' catalog /\ code_of C' = code_of C
                  /\ In (code_of P) (prereq_codes_of C')).
Proof.
  intros HP HC. unfold enhance. simpl. fold (code_of P).
  rewrite in_sorted. unfold build_reverse_prerequisite_map.
  rewrite in_build_reverse_map. unfold prereq_codes_of. intuition.
Qed.

(** A catalog where two records share the join key [CSCE2000]. *)
Definition dup_catalog : list course_rec :=
  [mk_course (s "CSCE 2000 - Data Structures")
             (Some (mk_ast (Some (NCourse (s "CSCE1000") (Some false) (Some false)))
                           None (s "CSCE 1000") None));
   mk_course (s "CSCE 2000 - Data Structures (Honors)") None;
   mk_course (s "CSCE 1000 - Fundamentals") None].

(** C2 (counterexample): with a duplicated join key, the record
    ["CSCE 2000 ... (Honors)"] collects no prerequisite, yet its code is
    listed in [is_prerequisite_for] of ["CSCE 1000"]. *)
Lemma C2_counterexample :
  ~ (forall C P, In C dup_catalog -> In P dup_catalog -> code_of C <> [] -> code_of P <> [] ->
       (In (code_of P) (prereq_codes_of C)
        <-> In (code_of C) (is_prerequisite_for
              (enhance (build_reverse_prerequisite_map dup_catalog)
                       (build_reverse_corequisite_map dup_catalog) P)))).
Proof.
  intro H.
  specialize (H (nth 1 dup_catalog (mk_course [] None)) (nth 2 dup_catalog (mk_course [] None))).
  vm_compute in H.
  destruct H as [_ H]; auto; try discriminate.
Qed.

(** C2 (amended): the code of a record [C] appears in the
    [is_prerequisite_for] field attached to a record [P] (both with a join
    key) exactly when [P]'s code is collected from the prerequisites tree
    of some record of the catalog whose join key is [C]'s code. *)
Theorem C2_reverse_prerequisites_by_join_key (catalog : list course_rec) (e : enhanced)
  (C : course_rec) :
  In e (add_reverse_fields catalog) -> code_of (base e) <> [] -> code_of C <> [] ->
  (In (code_of C) (is_prerequisite_for e)
   <-> exists C', In C' catalog /\ code_of C' = code_of C
                  /\ In (code_of (base e)) (prereq_codes_of C')).
Proof.
  intros He HP HC. unfold add_reverse_fields in He.
  apply in_map_iff in He as [P [<- HinP]].
  apply in_is_prerequisite_for; assumption.
Qed.

Lemma NoDup_map_inj {A B} (f : A -> B) (l : list A) x y :
  NoDup (map f l) -> In x l -> In y l -> f x = f y -> x = y.
Proof.
  induction l as [|z l IH]; simpl; [tauto|].
  intros Hnd Hx Hy Hxy. inversion Hnd as [|? ? Hnotin Hnd']; subst.
  destruct Hx as [<-|Hx], Hy as [<-|Hy]; auto.
  - exfalso. apply Hnotin. rewrite Hxy. apply in_map. exact Hy.
  - exfalso. apply Hnotin. rewrite <- Hxy. apply in_map. exact Hx.
Qed.

(** With unique join keys, the inversion is exact. *)
Lemma reverse_prerequisites_unique_keys (catalog : list course_rec) (C P : course_rec) :
  NoDup (map code_of catalog) -> In C catalog -> In P catalog ->
  code_of C <> [] -> code_of P <> [] ->
  (In (code_of P) (prereq_codes_of C)
   <-> In (code_of C) (is_prerequisite_for
         (enhance (build_reverse_prerequisite_map catalog)
                  (build_reverse_corequisite_map catalog) P))).
Proof.
  intros Hnd HC HP HcC HcP.
  rewrite (in_is_prerequisite_for catalog C P HcP HcC).
  split.
  - intros H. exists C. auto.
  - intros [C' [HC' [Hcode Hin]]].
    rewrite <- (NoDup_map_inj code_of catalog C' C Hnd HC' HC Hcode). exact Hin.
Qed.

(** ** Shape of the parser's output *)

(** Every [and] and every [or] node of the tree has at least two
    children. *)
Inductive wf : node -> Prop :=
| wf_course c a b : wf (NCourse c a b)
| wf_and l : 2 <= length l -> Forall wf l -> wf (NAnd l)
| wf_or l : 2 <= length l -> Forall wf l -> wf (NOr l)
| wf_group_none : wf (NGroup None)
| wf_group e : wf e -> wf (NGroup (Some e))
| wf_concurrent c n : wf c -> wf (NConcurrent c n)
| wf_text c k : wf (NText c k).

Definition wf_opt (o : option node) : Prop :=
  match o with Some n => wf n | None => True end.

Fixpoint node_ind' (P : node -> Prop)
  (Hc : forall c a b, P (NCourse c a b))
  (Ha : forall l, Forall P l -> P (NAnd l))
  (Ho : forall l, Forall P l -> P (NOr l))
  (Hg0 : P (NGroup None))
  (Hg : forall e, P e -> P (NGroup (Some e)))
  (Hcc : forall c n, P c -> P (NConcurrent c n))
  (Ht : forall c k, P (NText c k)) (n : node) {struct n} : P n :=
  let F := node_ind' P Hc Ha Ho Hg0 Hg Hcc Ht in
  let fix G (l : list node) : Forall P l :=
    match l with
    | [] => Forall_nil P
    | x :: l' => Forall_cons x (F x) (G l')
    end in
  match n with
  | NCourse c a b => Hc c a b
  | NAnd l => Ha l (G l)
  | NOr l => Ho l (G l)
  | NGroup None => Hg0
  | NGroup (Some e) => Hg e (F e)
  | NConcurrent c k => Hcc c k (F c)
  | NText c k => Ht c k
  end.

(** A course code written as a [course] leaf of a tree, reached through
    [and]/[or] children and [group] expressions only. *)
Inductive occurs_outside_concurrent (x : pystr) : node -> Prop :=
| ooc_course a b : occurs_outside_concurrent x (NCourse x a b)
| ooc_and l ch : In ch l -> occurs_outside_concurrent x ch -> occurs_outside_concurrent x (NAnd l)
| ooc_or l ch : In ch l -> occurs_outside_concurrent x ch -> occurs_outside_concurrent x (NOr l)
| ooc_group e : occurs_outside_concurrent x e -> occurs_outside_concurrent x (NGroup (Some e)).

(** A course code written as a [course] leaf anywhere in a tree, also
    inside the [course] of a [concurrent] node. *)
Inductive occurs_anywhere (x : pystr) : node -> Prop :=
| oa_course a b : occurs_anywhere x (NCourse x a b)
| oa_and l ch : In ch l -> occurs_anywhere x ch -> occurs_anywhere x (NAnd l)
| oa_or l ch : In ch l -> occurs_anywhere x ch -> occurs_anywhere x (NOr l)
| oa_group e : occurs_anywhere x e -> occurs_anywhere x (NGroup (Some e))
| oa_concurrent c note : occurs_anywhere x c -> occurs_anywhere x (NConcurrent c note).

Definition in_tree (R : pystr -> node -> Prop) (x : pystr) (t : option node) : Prop :=
  match t with Some n => R x n | None => False end.

Lemma in_collect_false x n :
  In x (collect false n) <-> occurs_outside_concurrent x n.
Proof.
  induction n as [c a b|l IHl|l IHl| |e IHe|c k IHc|c k] using node_ind'; cbn [collect].
  - rewrite in_set_add. simpl. split.
    + intros [->|[]]. constructor.
    + intro H. inversion H; subst. auto.
  - rewrite in_collect_children. simpl. split.
    + intros [[]|[ch [Hin Hx]]]. rewrite Forall_forall in IHl.
      apply (ooc_and _ _ ch Hin). apply IHl; assumption.
    + intro H. inversion H as [|l' ch Hin Hch| |]; subst. right. exists ch.
      rewrite Forall_forall in IHl. split; [exact Hin | apply IHl; assumption].
  - rewrite in_collect_children. simpl. split.
    + intros [[]|[ch [Hin Hx]]]. rewrite Forall_forall in IHl.
      apply (ooc_or _ _ ch Hin). apply IHl; assumption.
    + intro H. inversion H as [| |l' ch Hin Hch|]; subst. right. exists ch.
      rewrite Forall_forall in IHl. split; [exact Hin | apply IHl; assumption].
  - split; [intros []| intro H; inversion H].
  - rewrite IHe. split; [apply ooc_group | intro H; inversion H; assumption].
  - split; [intros []| intro H; inversion H].
  - split; [intros []| intro H; inversion H].
Qed.

Lemma in_collect_true x n :
  In x (collect true n) <-> occurs_anywhere x n.
Proof.
  induction n as [c a b|l IHl|l IHl| |e IHe|c k IHc|c k] using node_ind'; cbn [collect].
  - rewrite in_set_add. simpl. split.
    + intros [->|[]]. constructor.
    + intro H. inversion H; subst. auto.
  - rewrite in_collect_children. simpl. split.
    + intros [[]|[ch [Hin Hx]]]. rewrite Forall_forall in IHl.
      apply (oa_and _ _ ch Hin). apply IHl; assumption.
    + intro H. inversion H as [|l' ch Hin Hch| | |]; subst. right. exists ch.
      rewrite Forall_forall in IHl. split; [exact Hin | apply IHl; assumption].
  - rewrite in_collect_children. simpl. split.
    + intros [[]|[ch [Hin Hx]]]. rewrite Forall_forall in IHl.
      apply (oa_or _ _ ch Hin). apply IHl; assumption.
    + intro H. inversion H as [| |l' ch Hin Hch| |]; subst. right. exists ch.
      rewrite Forall_forall in IHl. split; [exact Hin | apply IHl; assumption].
  - split; [intros []| intro H; inversion H].
  - rewrite IHe. split; [apply oa_group | intro H; inversion H; assumption].
  - rewrite IHc. split; [apply oa_concurrent | intro H; inversion H; assumption].
  - split; [intros []| intro H; inversion H].
Qed.

(** C5: the prerequisite-direction reverse map holds an edge from [k] to
    a course code [x] exactly when a course of the catalog with code [x]
    has [k] as a [course] leaf reached through [and]/[or] children and
    [group] expressions only, never through a [concurrent] node: a code
    that occurs in the prerequisites trees only inside [concurrent] nodes
    gets no entry at all. The corequisite-direction map holds an edge
    when [k] occurs anywhere in a corequisites tree, [concurrent] nodes
    included. *)
Theorem C5_concurrent_only_in_coreq_direction (catalog : list course_rec) :
  (forall k x,
     In x (rm_get k (build_reverse_prerequisite_map catalog))
     <-> k <> [] /\ x <> []
         /\ exists C, In C catalog /\ code_of C = x
                     /\ in_tree occurs_outside_concurrent k (ast_prerequisites C))
  /\ (forall k,
        (forall C, In C catalog -> ~ in_tree occurs_outside_concurrent k (ast_prerequisites C)) ->
        rm_get k (build_reverse_prerequisite_map catalog) = [])
  /\ (forall k x,
        In x (rm_get k (build_reverse_corequisite_map catalog))
        <-> k <> [] /\ x <> []
            /\ exists C, In C catalog /\ code_of C = x
                        /\ in_tree occurs_anywhere k (ast_corequisites C)).
Proof.
  assert (Hp : forall k x,
     In x (rm_get k (build_reverse_prerequisite_map catalog))
     <-> k <> [] /\ x <> []
         /\ exists C, In C catalog /\ code_of C = x
                     /\ in_tree occurs_outside_concurrent k (ast_prerequisites C)).
  { intros k x. unfold build_reverse_prerequisite_map. rewrite in_build_reverse_map.
    split; intros [Hk [Hx [C [HC [Hc H]]]]]; repeat split; auto; exists C; repeat split; auto;
      destruct (ast_prerequisites C) as [n|]; cbn in *; try contradiction;
      apply in_collect_false; assumption. }
  split; [exact Hp|]. split.
  - intros k Hno. destruct (rm_get k (build_reverse_prerequisite_map catalog)) as [|x l] eqn:E;
      [reflexivity|].
    exfalso. assert (Hx : In x (rm_get k (build_reverse_prerequisite_map catalog)))
      by (rewrite E; left; reflexivity).
    apply Hp in Hx as [_ [_ [C [HC [_ H]]]]]. exact (Hno C HC H).
  - intros k x. unfold build_reverse_corequisite_map. rewrite in_build_reverse_map.
    split; intros [Hk [Hx [C [HC [Hc H]]]]]; repeat split; auto; exists C; repeat split; auto;
      destruct (ast_corequisites C) as [n|]; cbn in *; try contradiction;
      apply in_collect_true; assumption.
Qed.

(** A record whose prerequisites tree holds [CSCE1500] only inside a
    [concurrent] node. *)
Definition c5_catalog : list course_rec :=
  [mk_course (s "CSCE 2000 - Data Structures")
             (Some (mk_ast (Some (NAnd [NCourse (s "CSCE1000") (Some false) (Some false);
                                        NConcurrent (NCourse (s "CSCE1500") None None) []]))
                           None (s "CSCE 1000 and concurrent with CSCE 1500") None))].

Lemma C5_witness :
  rm_get (s "CSCE1500") (build_reverse_prerequisite_map c5_catalog) = [].
Proof.
  apply (proj1 (proj2 (C5_concurrent_only_in_coreq_direction c5_catalog))).
  intros C [<-|[]] H. vm_compute in H.
  inversion H as [|l ch Hin Hch| |]; subst.
  destruct Hin as [<-|[<-|[]]]; inversion Hch.
Defined.

Lemma parse_atomic_wf t n : parse_atomic t = Some n -> wf n.
Proof.
  unfold parse_atomic. destruct t as [|a t]; [discriminate|].
  destruct (re_search or_concurrent_pat _) as [[[? ?] ?]|];
    destruct (re_search COURSE_PATTERN _);
    try (intro H; inversion H; constructor; fail);
    destruct (_ || _); intro H; inversion H; constructor.
Qed.

Lemma filter_some_wf {A} (f : A -> option node) l :
  (forall x n, f x = Some n -> wf n) -> Forall wf (filter_some f l).
Proof.
  intro Hf. induction l as [|x l IH]; simpl; [constructor|].
  destruct (f x) eqn:E; [constructor; eauto|exact IH].
Qed.

Lemma parse_or_expression_wf t n : parse_or_expression t = Some n -> wf n.
Proof.
  unfold parse_or_expression. destruct t as [|a t]; [discriminate|].
  pose proof (filter_some_wf (fun part => parse_atomic (strip part))
                             (re_split or_pat (a :: t)) (fun x => parse_atomic_wf _)) as Hall.
  destruct (1 <? length _); [|apply parse_atomic_wf].
  destruct (filter_some _ _) as [|c1 [|c2 rest]] eqn:E.
  - apply parse_atomic_wf.
  - intro H. inversion H; subst. inversion Hall; auto.
  - intro H. inversion H; subst. constructor; [simpl; lia|exact Hall].
Qed.

Lemma py_map_ok {A B} (f : A -> py B) (P : A -> Prop) (Q : B -> Prop) l l' :
  Forall (fun x => P x -> forall y, f x = Ok y -> Q y) l -> Forall P l ->
  py_map f l = Ok l' -> length l' = length l /\ Forall Q l'.
Proof.
  revert l'. induction l as [|x l IH]; intros l' Hf HP; simpl.
  - intro H. inversion H. split; [reflexivity|constructor].
  - inversion Hf as [|? ? Hx Hf']; inversion HP as [|? ? Px HP']; subst.
    destruct (f x) as [y|e] eqn:Ex; simpl; [|discriminate].
    destruct (py_map f l) as [r|e] eqn:Er; simpl; [|discriminate].
    intro H. inversion H; subst.
    destruct (IH r Hf' HP' eq_refl) as [Hlen HQ].
    split; [simpl; congruence|constructor; eauto].
Qed.

Lemma rp_node_wf pe pm :
  (forall t o, pe t = Ok o -> wf_opt o) ->
  forall n n', wf n -> rp_node pe pm n = Ok n' -> wf n'.
Proof.
  intros Hpe n. induction n as [c a b|l IHl|l IHl| |e IHe|c k IHc|c k] using node_ind';
    intros n' Hwf Hrp; cbn [rp_node] in Hrp.
  - destruct (startswith (s "~~~GROUP") c); [|inversion Hrp; subst; exact Hwf].
    destruct (assoc c pm) as [gt|]; [|inversion Hrp; subst; exact Hwf].
    destruct (pe gt) as [o|e] eqn:E; simpl in Hrp; [|discriminate].
    inversion Hrp; subst. apply Hpe in E. destruct o; constructor; exact E.
  - inversion Hwf as [| l0 Hlen Hall | | | | |]; subst.
    destruct (py_map (rp_node pe pm) l) as [cs|e] eqn:E; simpl in Hrp; [|discriminate].
    inversion Hrp; subst.
    destruct (py_map_ok _ wf wf l cs (Forall_impl _ (fun x Hx Hw y Hy => Hx y Hw Hy) IHl) Hall E)
      as [Hl Hcs].
    constructor; [lia|exact Hcs].
  - inversion Hwf as [| | l0 Hlen Hall | | | |]; subst.
    destruct (py_map (rp_node pe pm) l) as [cs|e] eqn:E; simpl in Hrp; [|discriminate].
    inversion Hrp; subst.
    destruct (py_map_ok _ wf wf l cs (Forall_impl _ (fun x Hx Hw y Hy => Hx y Hw Hy) IHl) Hall E)
      as [Hl Hcs].
    constructor; [lia|exact Hcs].
  - inversion Hrp; subst. constructor.
  - inversion Hwf; subst.
    destruct (rp_node pe pm e) as [e'|x] eqn:E; simpl in Hrp; [|discriminate].
    inversion Hrp; subst. constructor. eauto.
  - inversion Hrp; subst. exact Hwf.
  - inversion Hrp; subst. exact Hwf.
Qed.

Lemma replace_placeholders_wf pe pm o o' :
  (forall t o, pe t = Ok o -> wf_opt o) ->
  wf_opt o -> replace_placeholders pe pm o = Ok o' -> wf_opt o'.
Proof.
  intros Hpe Hwf. destruct o as [n|]; simpl.
  - destruct (rp_node pe pm n) as [n'|e] eqn:E; simpl; [|discriminate].
    intro H. inversion H; subst. simpl. eapply rp_node_wf; eauto.
  - intro H. inversion H. exact I.
Qed.

Lemma parse_expression_wf fuel t o : parse_expression fuel t = Ok o -> wf_opt o.
Proof.
  revert t o. induction fuel as [|f IH]; intros t o; cbn [parse_expression]; [discriminate|].
  destruct t as [|a t]; [intro H; inversion H; exact I|].
  destruct (contains (s "(") (normalize (a :: t)) && contains (s ")") (normalize (a :: t))).
  - destruct (re_sub_st group_pattern _ _ _) as [modified [pm cnt]].
    destruct (parse_expression f modified) as [r|e] eqn:E; simpl; [|discriminate].
    apply replace_placeholders_wf; [exact IH|exact (IH _ _ E)].
  - pose proof (filter_some_wf (fun part => parse_or_expression (strip part))
                  (split_on_and (normalize (a :: t))) (fun x => parse_or_expression_wf _)) as Hall.
    destruct (1 <? length _).
    + destruct (filter_some _ _) as [|c1 [|c2 rest]] eqn:E.
      * intro H. inversion H; subst. destruct (parse_or_expression _) eqn:E';
          [eapply parse_or_expression_wf; eauto | exact I].
      * intro H. inversion H; subst. inversion Hall; auto.
      * intro H. inversion H; subst. constructor; [simpl; lia|exact Hall].
    + intro H. inversion H; subst. destruct (parse_or_expression _) eqn:E';
        [eapply parse_or_expression_wf; eauto | exact I].
Qed.

Lemma parse_concurrent_wf t n : parse_concurrent t = Some n -> wf n.
Proof.
  unfold parse_concurrent. destruct t as [|a t]; [discriminate|].
  destruct (re_findall COURSE_PATTERN (a :: t)) as [|c1 [|c2 rest]]; intro H;
    inversion H; subst; constructor; [constructor|].
  constructor; [simpl; lia|].
  repeat constructor. induction rest; simpl; repeat constructor; auto.
Qed.

Lemma split_prereq_and_concurrent_wf fuel t p c :
  split_prereq_and_concurrent fuel t = Ok (p, c) -> wf_opt p /\ wf_opt c.
Proof.
  assert (Hc : forall x, wf_opt (parse_concurrent x)).
  { intro x. destruct (parse_concurrent x) eqn:E; [eapply parse_concurrent_wf; eauto|exact I]. }
  unfold split_prereq_and_concurrent. destruct t as [|a t].
  { intro H. inversion H. split; exact I. }
  destruct (_ || _).
  { intro H. injection H as <- <-. split; [exact I|exact (Hc (a :: t))]. }
  destruct (re_search concurrent_split_pat (a :: t)) as [[[x y] cs]|].
  - destruct (strip (firstn x (a :: t))) as [|b u] eqn:Ep.
    + simpl. intro H. injection H as <- <-. split; [exact I|].
      destruct (strip (skipn y (a :: t))) as [|b' u']; [exact I|exact (Hc (b' :: u'))].
    + destruct (parse_expression fuel (b :: u)) as [o|e] eqn:E; simpl; [|discriminate].
      intro H. injection H as <- <-. split; [eapply parse_expression_wf; eauto|].
      destruct (strip (skipn y (a :: t))) as [|b' u']; [exact I|exact (Hc (b' :: u'))].
  - destruct (parse_expression fuel (a :: t)) as [o|e] eqn:E; simpl; [|discriminate].
    intro H. injection H as <- <-. split; [eapply parse_expression_wf; eauto|exact I].
Qed.

(** C10: in every AST that [parse] returns, each [and] and each [or] node
    has at least two children. *)
Theorem C10_and_or_at_least_two_children (fuel : nat) (p c : pystr) (a : prereq_ast) :
  parse fuel p c = Ok a -> wf_opt (prerequisites a) /\ wf_opt (corequisites a).
Proof.
  assert (Hcf : forall (q : list ascii) cn, wf_opt cn ->
            wf_opt (match parse_concurrent q with
                    | Some cf => match cn with
                                 | Some n => Some (NAnd [n; cf])
                                 | None => Some cf
                                 end
                    | None => cn
                    end)).
  { intros q cn Hcn. destruct (parse_concurrent q) as [cf|] eqn:Ecf; [|exact Hcn].
    apply parse_concurrent_wf in Ecf. destruct cn as [n|]; simpl; [|exact Ecf].
    constructor; [simpl; lia|repeat constructor; auto]. }
  unfold parse. destruct p as [|x p], c as [|y c];
    [intro H; inversion H; subst; split; exact I| | |].
  all: destruct (split_prereq_and_concurrent fuel (strip _)) as [[pn cn]|e] eqn:E;
       cbn [bind]; [|discriminate].
  all: apply split_prereq_and_concurrent_wf in E as [Hp Hcn].
  all: intro H; injection H as <-; cbn [prerequisites corequisites];
       split; [exact Hp|first [exact Hcn | exact (Hcf (y :: c) cn Hcn)]].
Qed.

Lemma C10_witness :
  parse 1000 (s "CSCE 1001 and CSCE 1101 or CSCE 1102") (s "CSCE 2303 or CSCE 2304")
  = Ok (mk_ast
          (Some (NAnd [NCourse (s "CSCE1001") (Some false) (Some false);
                       NOr [NCourse (s "CSCE1101") (Some false) (Some false);
                            NCourse (s "CSCE1102") (Some false) (Some false)]]))
          (Some (NConcurrent (NOr [NCourse (s "CSCE2303") None None;
                                   NCourse (s "CSCE2304") None None]) []))
          (s "CSCE 1001 and CSCE 1101 or CSCE 1102 | Concurrent: CSCE 2303 or CSCE 2304")
          None)
  /\ wf_opt (Some (NAnd [NCourse (s "CSCE1001") (Some false) (Some false);
                       NOr [NCourse (s "CSCE1101") (Some false) (Some false);
                            NCourse (s "CSCE1102") (Some false) (Some false)]]))
  /\ wf_opt (Some (NConcurrent (NOr [NCourse (s "CSCE2303") None None;
                                   NCourse (s "CSCE2304") None None]) [])).
Proof.
  assert (H : parse 1000 (s "CSCE 1001 and CSCE 1101 or CSCE 1102") (s "CSCE 2303 or CSCE 2304")
  = Ok (mk_ast
          (Some (NAnd [NCourse (s "CSCE1001") (Some false) (Some false);
                       NOr [NCourse (s "CSCE1101") (Some false) (Some false);
                            NCourse (s "CSCE1102") (Some false) (Some false)]]))
          (Some (NConcurrent (NOr [NCourse (s "CSCE2303") None None;
                                   NCourse (s "CSCE2304") None None]) []))
          (s "CSCE 1001 and CSCE 1101 or CSCE 1102 | Concurrent: CSCE 2303 or CSCE 2304")
          None)) by (vm_compute; reflexivity).
  split; [exact H|].
  exact (C10_and_or_at_least_two_children _ _ _ _ H).
Defined.

(** C3 (amended): when the conjunction split of [_parse_expression] (on a
    text without both parentheses) or the disjunction split of
    [_parse_or_expression] yields several segments, a single surviving
    child is returned itself; with no surviving child the combinator does
    not give [None] but re-parses the whole text one level down (the
    disjunction parser, resp. the atomic classifier). *)
Theorem C3_combinator_collapse_and_fallback :
  (forall t, t <> [] -> 1 < length (re_split or_pat t) ->
     filter_some (fun part => parse_atomic (strip part)) (re_split or_pat t) = [] ->
     parse_or_expression t = parse_atomic t)
  /\ (forall t c, t <> [] -> 1 < length (re_split or_pat t) ->
     filter_some (fun part => parse_atomic (strip part)) (re_split or_pat t) = [c] ->
     parse_or_expression t = Some c)
  /\ (forall fuel t, t <> [] ->
     contains (s "(") (normalize t) && contains (s ")") (normalize t) = false ->
     1 < length (split_on_and (normalize t)) ->
     filter_some (fun part => parse_or_expression (strip part)) (split_on_and (normalize t)) = [] ->
     parse_expression (S fuel) t = Ok (parse_or_expression (normalize t)))
  /\ (forall fuel t c, t <> [] ->
     contains (s "(") (normalize t) && contains (s ")") (normalize t) = false ->
     1 < length (split_on_and (normalize t)) ->
     filter_some (fun part => parse_or_expression (strip part)) (split_on_and (normalize t)) = [c] ->
     parse_expression (S fuel) t = Ok (Some c)).
Proof.
  split; [|split; [|split]].
  - intros [|a t] Hne Hlen Hnone; [congruence|].
    unfold parse_or_expression. apply Nat.ltb_lt in Hlen. rewrite Hlen, Hnone. reflexivity.
  - intros [|a t] c Hne Hlen Hone; [congruence|].
    unfold parse_or_expression. apply Nat.ltb_lt in Hlen. rewrite Hlen, Hone. reflexivity.
  - intros fuel [|a t] Hne Hpar Hlen Hnone; [congruence|].
    cbn [parse_expression]. rewrite Hpar. apply Nat.ltb_lt in Hlen. rewrite Hlen, Hnone.
    reflexivity.
  - intros fuel [|a t] c Hne Hpar Hlen Hone; [congruence|].
    cbn [parse_expression]. rewrite Hpar. apply Nat.ltb_lt in Hlen. rewrite Hlen, Hone.
    reflexivity.
Qed.

Lemma C3_witness :
  parse_or_expression (s "a or b") = Some (NText (s "a or b") (s "other"))
  /\ parse_or_expression (s "CSCE 1001 or xy") = Some (NCourse (s "CSCE1001") (Some false) (Some false))
  /\ parse_expression 1 (s "a and b") = Ok (Some (NText (s "a and b") (s "other")))
  /\ parse_expression 1 (s "CSCE 1001 and xy")
     = Ok (Some (NCourse (s "CSCE1001") (Some false) (Some false))).
Proof.
  destruct C3_combinator_collapse_and_fallback as [H1 [H2 [H3 H4]]].
  split; [|split; [|split]].
  - rewrite H1; [vm_compute; reflexivity|discriminate|vm_compute; lia|vm_compute; reflexivity].
  - apply H2; [discriminate|vm_compute; lia|vm_compute; reflexivity].
  - rewrite H3; [vm_compute; reflexivity|discriminate|vm_compute; reflexivity
                 |vm_compute; lia|vm_compute; reflexivity].
  - apply H4; [discriminate|vm_compute; reflexivity|vm_compute; lia|vm_compute; reflexivity].
Defined.

(** A catalog where [CSCE 2303] requires [CSCE 1101]. *)
Lemma C2_witness :
  let catalog :=
    [mk_course (s "CSCE 2303 - Computer Organization")
               (Some (mk_ast (Some (NCourse (s "CSCE1101") (Some false) (Some false)))
                             None (s "CSCE 1101") None));
     mk_course (s "CSCE 1101 - Fundamentals") None] in
  In (s "CSCE2303") (is_prerequisite_for (nth 1 (add_reverse_fields catalog)
                                              (mk_enhanced (mk_course [] None) [] [])))
  <-> exists C', In C' catalog /\ code_of C' = s "CSCE2303"
                 /\ In (s "CSCE1101") (prereq_codes_of C').
Proof.
  intro catalog.
  exact (C2_reverse_prerequisites_by_join_key catalog
           (nth 1 (add_reverse_fields catalog) (mk_enhanced (mk_course [] None) [] []))
           (nth 0 catalog (mk_course [] None))
           (or_intror (or_introl eq_refl))
           ltac:(vm_compute; discriminate) ltac:(vm_compute; discriminate)).
Defined.

(** ** Substrings *)

Lemma lstrip_by_suffix p t : exists pre, t = pre ++ lstrip_by p t.
Proof.
  induction t as [|c t IH]; simpl.
  - exists []. reflexivity.
  - destruct (p c).
    + destruct IH as [pre Hpre]. exists (c :: pre). simpl. congruence.
    + exists []. reflexivity.
Qed.

Lemma strip_by_infix p t : exists pre suf, t = pre ++ strip_by p t ++ suf.
Proof.
  unfold strip_by.
  destruct (lstrip_by_suffix p t) as [pre Hpre].
  destruct (lstrip_by_suffix p (rev (lstrip_by p t))) as [pre2 Hpre2].
  exists pre, (rev pre2).
  rewrite Hpre at 1. f_equal.
  set (X := lstrip_by p t) in *. set (L := lstrip_by p (rev X)) in *.
  rewrite <- (rev_involutive X) at 1. rewrite Hpre2, rev_app_distr. reflexivity.
Qed.

Lemma slice_infix a b t : exists pre suf, t = pre ++ slice a b t ++ suf.
Proof.
  unfold slice. exists (firstn a t), (skipn (b - a) (skipn a t)).
  rewrite firstn_skipn. symmetry. apply firstn_skipn.
Qed.

Lemma infix_trans (x y t : pystr) :
  (exists p q, y = p ++ x ++ q) -> (exists p q, t = p ++ y ++ q) ->
  exists p q, t = p ++ x ++ q.
Proof.
  intros [p1 [q1 H1]] [p2 [q2 H2]]. exists (p2 ++ p1), (q1 ++ q2).
  subst. rewrite !app_assoc. reflexivity.
Qed.

Lemma concurrent_note_infix t : exists pre suf, t = pre ++ concurrent_note t ++ suf.
Proof.
  unfold concurrent_note.
  destruct (contains _ _); [|exists t, []; rewrite app_nil_r; reflexivity].
  destruct (re_search note_pat t) as [[[a b] cs]|]; [|exists t, []; rewrite app_nil_r; reflexivity].
  apply infix_trans with (y := group_text t 1 (a, b, cs)); [apply strip_by_infix|].
  unfold group_text. simpl.
  destruct (group 1 cs) as [[x y]|]; [apply slice_infix|].
  exists t, []. rewrite app_nil_r. reflexivity.
Qed.

(** C6 (amended): [_parse_concurrent] gives no node without a course
    code, a [concurrent] node over a single [course] leaf for one code and
    over an [or] of [course] leaves for several; its [note] is empty when
    the text does not contain ["for"] (case-insensitive), and otherwise is
    a contiguous piece of the text: the trimmed capture of the first match
    of [for\s+(.+?)(?:\.|$)], which ends at the first period. *)
Theorem C6_parse_concurrent_shape (t : pystr) :
  t <> [] ->
  (re_findall COURSE_PATTERN t = [] -> parse_concurrent t = None)
  /\ (forall c, re_findall COURSE_PATTERN t = [c] ->
        parse_concurrent t
        = Some (NConcurrent (NCourse (replace (s " ") [] c) None None) (concurrent_note t)))
  /\ (forall c1 c2 rest, re_findall COURSE_PATTERN t = c1 :: c2 :: rest ->
        parse_concurrent t
        = Some (NConcurrent (NOr (map course_leaf (c1 :: c2 :: rest))) (concurrent_note t)))
  /\ (contains (s "for") (lower t) = false -> concurrent_note t = [])
  /\ (exists pre suf, t = pre ++ concurrent_note t ++ suf).
Proof.
  intro Hne. destruct t as [|a t]; [congruence|].
  split; [|split; [|split; [|split]]].
  - intro H. unfold parse_concurrent. rewrite H. reflexivity.
  - intros c H. unfold parse_concurrent. rewrite H. reflexivity.
  - intros c1 c2 rest H. unfold parse_concurrent. rewrite H. reflexivity.
  - intro H. unfold concurrent_note. rewrite H. reflexivity.
  - apply concurrent_note_infix.
Qed.

Lemma C6_witness :
  parse_concurrent (s "CSCE 4301 or CSCE 4302 for majors.")
  = Some (NConcurrent (NOr [NCourse (s "CSCE4301") None None; NCourse (s "CSCE4302") None None])
                      (s "majors")).
Proof.
  destruct (C6_parse_concurrent_shape (s "CSCE 4301 or CSCE 4302 for majors.") ltac:(discriminate))
    as [_ [_ [H _]]].
  rewrite (H (s "CSCE 4301") (s "CSCE 4302") []); [|vm_compute; reflexivity].
  vm_compute. reflexivity.
Defined.

(** ** Anchored substitutions *)

Lemma search_from_bol t fuel r pos :
  0 < pos -> search_from t fuel (RSeq RBol r) pos = None.
Proof.
  revert pos. induction fuel as [|f IH]; intros pos Hpos;
    destruct pos as [|p]; try lia; cbn [search_from]; unfold mt_top; cbn [mt]; simpl.
  - reflexivity.
  - destruct (S p <? length t); [apply IH; lia|reflexivity].
Qed.

Lemma matches_bol t r :
  matches (RSeq RBol r) t = [] \/ exists b cs, matches (RSeq RBol r) t = [(0, b, cs)].
Proof.
  unfold matches. cbn [all_matches].
  assert (H0 : search_from t (length t) (RSeq RBol r) 0 = None
               \/ exists b cs, search_from t (length t) (RSeq RBol r) 0 = Some (0, b, cs)).
  { destruct (length t) as [|n]; cbn [search_from];
      destruct (mt_top t (RSeq RBol r) 0) as [[j cs]|]; eauto.
    destruct (0 <? length t); [|auto]. left. apply search_from_bol. lia. }
  destruct H0 as [H0|[b [cs H0]]]; rewrite H0; [auto|].
  right. exists b, cs. f_equal.
  destruct (length t) as [|n]; cbn [all_matches]; [reflexivity|].
  rewrite search_from_bol; [reflexivity|].
  destruct (b =? 0) eqn:E; [lia|apply Nat.eqb_neq in E; lia].
Qed.

Lemma re_sub_bol t r :
  exists b, re_sub (RSeq RBol r) [] t = skipn b t.
Proof.
  unfold re_sub, re_sub_st.
  destruct (matches_bol t r) as [H|[b [cs H]]]; rewrite H; simpl.
  - exists 0. reflexivity.
  - exists b. reflexivity.
Qed.

Lemma matches_bol_none t r :
  mt_top t (RSeq RBol r) 0 = None -> matches (RSeq RBol r) t = [].
Proof.
  intro H. unfold matches. cbn [all_matches].
  destruct (length t) as [|n] eqn:Hlen; cbn [search_from]; rewrite H; [reflexivity|].
  rewrite Hlen. cbn [Nat.ltb Nat.leb]. rewrite search_from_bol; [reflexivity|lia].
Qed.

Lemma re_sub_head_mismatch t f X Y :
  (match t with c :: _ => f c = false | [] => True end) ->
  re_sub (RSeq RBol (RSeq (RSeq (RChar f) X) Y)) [] t = t.
Proof.
  intro Hc. unfold re_sub, re_sub_st.
  rewrite matches_bol_none; [cbn; reflexivity|].
  unfold mt_top. cbn [mt Nat.eqb]. unfold char_at.
  destruct t as [|c t']; [reflexivity|]. cbn [nth_error]. rewrite Hc. reflexivity.
Qed.

(** ** Anchored substitutions that do match *)

(** One character of a literal under [re.IGNORECASE]. *)
Definition lit_char (c : ascii) : regex :=
  RChar (fun d => Ascii.eqb (lower_char c) (lower_char d)).

Lemma lit_i_eq x : lit_i x = rseq (map lit_char (list_ascii_of_string x)).
Proof. reflexivity. Qed.

Lemma rseq_cons r rs : rs <> [] -> rseq (r :: rs) = RSeq r (rseq rs).
Proof. destruct rs; [congruence|reflexivity]. Qed.

Lemma skipn_cons_inv (t : pystr) i d r :
  skipn i t = d :: r -> nth_error t i = Some d /\ skipn (S i) t = r.
Proof.
  revert t. induction i as [|i IH]; intros [|e t] H; simpl in *; try discriminate.
  - injection H as -> ->. split; [reflexivity|]. destruct r; reflexivity.
  - apply IH. exact H.
Qed.

Lemma skipn_nil_nth (t : pystr) i : skipn i t = [] -> nth_error t i = None.
Proof.
  revert t. induction i as [|i IH]; intros [|e t] H; simpl in *; try discriminate; auto.
Qed.

Lemma skipn_advance (t : pystr) i y rest :
  skipn i t = y ++ rest -> skipn (i + length y) t = rest.
Proof.
  revert i. induction y as [|d y IH]; intros i H.
  - rewrite Nat.add_0_r. exact H.
  - simpl in H. apply skipn_cons_inv in H as [_ H].
    replace (i + length (d :: y)) with (S i + length y) by (simpl; lia). apply IH. exact H.
Qed.

Lemma mt_lit_i_run txt x : forall i y rest k cs,
  skipn i txt = y ++ rest -> lower y = lower x ->
  mt txt (rseq (map lit_char x)) k i cs = k (i + length y) cs.
Proof.
  induction x as [|a x IH]; intros i y rest k cs Hs Hl.
  - destruct y; [|discriminate]. rewrite Nat.add_0_r. reflexivity.
  - destruct y as [|d y]; [discriminate|]. injection Hl as Hd Hl.
    simpl in Hs. apply skipn_cons_inv in Hs as [Hn Hs].
    assert (Hc : Ascii.eqb (lower_char a) (lower_char d) = true)
      by (apply Ascii.eqb_eq; symmetry; exact Hd).
    destruct x as [|b x].
    + destruct y; [|discriminate]. cbn [map rseq lit_char mt]. unfold char_at. rewrite Hn, Hc.
      f_equal. simpl. lia.
    + cbn [map]. rewrite rseq_cons by discriminate. cbn [lit_char mt]. unfold char_at at 1.
      rewrite Hn, Hc. specialize (IH (S i) y rest k cs Hs Hl). cbn [map] in IH. rewrite IH.
      f_equal. simpl. lia.
Qed.

Lemma mt_lit_i_mismatch txt x1 a x2 : forall i y d rest k cs,
  skipn i txt = y ++ d :: rest -> lower y = lower x1 -> lower_char a <> lower_char d ->
  mt txt (rseq (map lit_char (x1 ++ a :: x2))) k i cs = None.
Proof.
  assert (Hne : forall l, map lit_char (l ++ a :: x2) <> []).
  { intros l E. apply (f_equal (@length regex)) in E. rewrite length_map, length_app in E.
    simpl in E. lia. }
  induction x1 as [|b x1 IH]; intros i y d rest k cs Hs Hl Ha.
  - destruct y; [|discriminate]. simpl in Hs. apply skipn_cons_inv in Hs as [Hn _].
    assert (Hc : Ascii.eqb (lower_char a) (lower_char d) = false) by (apply Ascii.eqb_neq; exact Ha).
    destruct x2 as [|b x2].
    + cbn [app map rseq lit_char mt]. unfold char_at. rewrite Hn, Hc. reflexivity.
    + cbn [app map]. rewrite rseq_cons by discriminate. cbn [lit_char mt]. unfold char_at.
      rewrite Hn, Hc. reflexivity.
  - destruct y as [|e y]; [discriminate|]. injection Hl as He Hl.
    simpl in Hs. apply skipn_cons_inv in Hs as [Hn Hs].
    assert (Hc : Ascii.eqb (lower_char b) (lower_char e) = true)
      by (apply Ascii.eqb_eq; symmetry; exact He).
    cbn [app map]. rewrite rseq_cons by (apply Hne). cbn [lit_char mt]. unfold char_at at 1.
    rewrite Hn, Hc. exact (IH (S i) y d rest k cs Hs Hl Ha).
Qed.

Lemma mt_star_char_none txt p k i cs :
  nth_error txt i = None -> mt txt (RStar (RChar p)) k i cs = k i cs.
Proof. intro H. cbn [mt]. unfold char_at. rewrite H. reflexivity. Qed.

Lemma mt_star_char_some txt p k i cs c :
  nth_error txt i = Some c ->
  mt txt (RStar (RChar p)) k i cs
  = if p c then match mt txt (RStar (RChar p)) k (S i) cs with
                | Some v => Some v
                | None => k i cs
                end
    else k i cs.
Proof.
  intro H. assert (Hlt : i < length txt) by (apply nth_error_Some; congruence).
  cbn [mt]. replace (length txt - i) with (S (length txt - S i)) by lia.
  unfold char_at at 1. rewrite H. destruct (p c); [|reflexivity].
  replace (i <? S i) with true by (symmetry; apply Nat.ltb_lt; lia). reflexivity.
Qed.

Lemma mt_star_run txt p w : forall i rest k cs v,
  skipn i txt = w ++ rest -> forallb p w = true ->
  match rest with c :: _ => p c = false | [] => True end ->
  k (i + length w) cs = Some v ->
  mt txt (RStar (RChar p)) k i cs = Some v.
Proof.
  induction w as [|a w IH]; intros i rest k cs v Hs Hw Hr Hk.
  - rewrite Nat.add_0_r in Hk. simpl in Hs. destruct rest as [|c rest].
    + rewrite mt_star_char_none; [exact Hk|]. apply skipn_nil_nth. exact Hs.
    + apply skipn_cons_inv in Hs as [Hn _]. rewrite (mt_star_char_some _ _ _ _ _ c Hn), Hr.
      exact Hk.
  - simpl in Hs, Hw. apply andb_prop in Hw as [Ha Hw].
    apply skipn_cons_inv in Hs as [Hn Hs].
    rewrite (mt_star_char_some _ _ _ _ _ a Hn), Ha.
    rewrite (IH (S i) rest k cs v Hs Hw Hr); [reflexivity|].
    rewrite <- Hk. f_equal. simpl. lia.
Qed.

Lemma mt_plus_run txt p w i rest k cs v :
  skipn i txt = w ++ rest -> w <> [] -> forallb p w = true ->
  match rest with c :: _ => p c = false | [] => True end ->
  k (i + length w) cs = Some v ->
  mt txt (rplus (RChar p)) k i cs = Some v.
Proof.
  intros Hs Hne Hw Hr Hk. destruct w as [|a w]; [congruence|].
  simpl in Hs, Hw. apply andb_prop in Hw as [Ha Hw].
  apply skipn_cons_inv in Hs as [Hn Hs].
  unfold rplus. cbn [mt]. unfold char_at at 1. rewrite Hn, Ha.
  apply (mt_star_run txt p w (S i) rest k cs v Hs Hw Hr).
  rewrite <- Hk. f_equal. simpl. lia.
Qed.

Lemma re_sub_bol_some t r b cs :
  mt_top t (RSeq RBol r) 0 = Some (b, cs) -> re_sub (RSeq RBol r) [] t = skipn b t.
Proof.
  intro H. unfold re_sub, re_sub_st, matches. cbn [all_matches].
  assert (Hs : search_from t (length t) (RSeq RBol r) 0 = Some (0, b, cs))
    by (destruct (length t); cbn [search_from]; rewrite H; reflexivity).
  rewrite Hs.
  assert (Hrest : forall f pos, 0 < pos -> all_matches t f (RSeq RBol r) pos = []).
  { intros [|f] pos Hp; cbn [all_matches]; [reflexivity|].
    rewrite search_from_bol; [reflexivity|exact Hp]. }
  rewrite Hrest by (destruct (b =? 0) eqn:E; [lia|apply Nat.eqb_neq in E; lia]).
  reflexivity.
Qed.

Lemma re_sub_bol_none t r :
  mt_top t (RSeq RBol r) 0 = None -> re_sub (RSeq RBol r) [] t = t.
Proof.
  intro H. unfold re_sub, re_sub_st. rewrite matches_bol_none by exact H. reflexivity.
Qed.

Lemma lower_char_space c : is_space c = true -> lower_char c = c.
Proof.
  destruct c as [[] [] [] [] [] [] [] []]; vm_compute; intro H;
    first [reflexivity | discriminate].
Qed.

Lemma lower_char_not_space c x :
  lower_char c = x -> is_space x = false -> is_space c = false.
Proof.
  intros Hc Hx. destruct (is_space c) eqn:E; [|reflexivity].
  rewrite (lower_char_space c E) in Hc. subst. rewrite E in Hx. exact Hx.
Qed.

Lemma mt_seq txt r1 r2 k i cs :
  mt txt (RSeq r1 r2) k i cs = mt txt r1 (fun j cs' => mt txt r2 k j cs') i cs.
Proof. reflexivity. Qed.

Lemma mt_bol0 txt k cs : mt txt RBol k 0 cs = k 0 cs.
Proof. reflexivity. Qed.

Lemma skipn_length_app (y r : pystr) : skipn (length y) (y ++ r) = r.
Proof. exact (skipn_advance (y ++ r) 0 y r eq_refl). Qed.

Ltac skipn_at := repeat (apply skipn_advance); reflexivity.

(** C8 (amended): the normalization step trims the text and then removes
    the leading labels ["Pre-requisites or concurrent:"] and
    ["Prerequisite:"] (case-insensitive, the words of the first separated
    by runs of whitespace, each label with the whitespace after it) by
    anchored substitutions. Its result is always a suffix of the trimmed
    text, so inner runs of whitespace are kept as they are; a trimmed text
    that does not start with [p] or [P] is returned unchanged; a trimmed
    text [l ++ w ++ r] with [l] a ["Prerequisite:"] label and [w] the run of
    whitespace after it gives [r]; a trimmed text that starts with a
    ["Pre-requisites or concurrent:"] label and its whitespace gives what
    is left after it, passed through the second substitution. *)
Theorem C8_normalize_trims_and_drops_prefix (t : pystr) :
  (exists k, normalize t = skipn k (strip t))
  /\ (match strip t with c :: _ => lower_char c <> "p"%char | [] => True end ->
      normalize t = strip t)
  /\ (forall l w r,
        strip t = l ++ w ++ r -> lower l = s "prerequisite:" ->
        forallb is_space w = true ->
        match r with c :: _ => is_space c = false | [] => True end ->
        normalize t = r)
  /\ (forall l1 w1 l2 w2 l3 w r,
        strip t = l1 ++ w1 ++ l2 ++ w2 ++ l3 ++ w ++ r ->
        lower l1 = s "pre-requisites" -> lower l2 = s "or" -> lower l3 = s "concurrent:" ->
        w1 <> [] -> w2 <> [] -> forallb is_space (w1 ++ w2 ++ w) = true ->
        match r with c :: _ => is_space c = false | [] => True end ->
        normalize t = re_sub prerequisite_label [] r).
Proof.
  split; [|split; [|split]].
  - unfold normalize.
    assert (H1 : exists b, re_sub prereq_or_conc_label [] (strip t) = skipn b (strip t))
      by (apply re_sub_bol).
    destruct H1 as [b1 H1]. rewrite H1.
    assert (H2 : exists b, re_sub prerequisite_label [] (skipn b1 (strip t))
                           = skipn b (skipn b1 (strip t)))
      by (apply re_sub_bol).
    destruct H2 as [b2 H2]. rewrite H2, skipn_skipn. eauto.
  - intro Hc.
    assert (Hf : match strip t with
                 | c :: _ => Ascii.eqb (lower_char "P") (lower_char c) = false
                 | [] => True end).
    { destruct (strip t) as [|c u]; [exact I|]. apply Ascii.eqb_neq. intro E. apply Hc.
      rewrite <- E. reflexivity. }
    unfold normalize.
    rewrite (re_sub_head_mismatch (strip t) _ _ _ Hf : re_sub prereq_or_conc_label [] (strip t) = strip t).
    exact (re_sub_head_mismatch (strip t) _ _ _ Hf).
  - intros l w r Hs Hl Hw Hr. unfold normalize. rewrite Hs.
    assert (Hn : mt_top (l ++ w ++ r) prereq_or_conc_label 0 = None).
    { destruct l as [|a0 [|a1 [|a2 [|a3 l']]]]; try discriminate Hl.
      cbn [lower map] in Hl. injection Hl as H0 H1 H2 H3 _.
      unfold mt_top, prereq_or_conc_label. cbn [rseq mt Nat.eqb].
      rewrite (lit_i_eq "Pre-requisites").
      change (list_ascii_of_string "Pre-requisites") with (s "Pre" ++ "-"%char :: s "requisites").
      apply (mt_lit_i_mismatch _ _ _ _ 0 [a0; a1; a2] a3 (l' ++ w ++ r)).
      - reflexivity.
      - cbn [lower map]. rewrite H0, H1, H2. reflexivity.
      - rewrite H3. discriminate. }
    change prereq_or_conc_label with (RSeq RBol (RSeq (lit_i "Pre-requisites")
      (rseq [rplus sp; lit_i "or"; rplus sp; lit_i "concurrent:"; RStar sp]))) in Hn |- *.
    rewrite (re_sub_bol_none _ _ Hn).
    assert (Hm : mt_top (l ++ w ++ r) (RSeq RBol (RSeq (lit_i "Prerequisite:") (RStar sp))) 0
                 = Some (length (l ++ w), [])).
    { unfold mt_top. rewrite mt_seq, mt_bol0. cbv beta. rewrite mt_seq.
      rewrite (lit_i_eq "Prerequisite:").
      rewrite (mt_lit_i_run _ _ 0 l (w ++ r)); [|reflexivity|rewrite Hl; reflexivity].
      cbv beta. unfold sp. apply (mt_star_run _ _ w _ r); [skipn_at|exact Hw|exact Hr|].
      rewrite length_app. reflexivity. }
    change prerequisite_label with (RSeq RBol (RSeq (lit_i "Prerequisite:") (RStar sp))).
    rewrite (re_sub_bol_some _ _ _ _ Hm).
    rewrite app_assoc. apply skipn_length_app.
  - intros l1 w1 l2 w2 l3 w r Hs Hl1 Hl2 Hl3 Hw1 Hw2 Hw Hr. unfold normalize. rewrite Hs.
    rewrite !forallb_app in Hw. apply andb_prop in Hw as [Hw1s Hw]. apply andb_prop in Hw as [Hw2s Hws].
    assert (Hh2 : match l2 ++ w2 ++ l3 ++ w ++ r with
                  | c :: _ => is_space c = false | [] => True end).
    { destruct l2 as [|c l2']; [discriminate|]. cbn [app]. cbn [lower map] in Hl2.
      injection Hl2 as Hc _. exact (lower_char_not_space c _ Hc eq_refl). }
    assert (Hh3 : match l3 ++ w ++ r with
                  | c :: _ => is_space c = false | [] => True end).
    { destruct l3 as [|c l3']; [discriminate|]. cbn [app]. cbn [lower map] in Hl3.
      injection Hl3 as Hc _. exact (lower_char_not_space c _ Hc eq_refl). }
    set (T := l1 ++ w1 ++ l2 ++ w2 ++ l3 ++ w ++ r).
    assert (Hm : mt_top T prereq_or_conc_label 0
                 = Some (length (l1 ++ w1 ++ l2 ++ w2 ++ l3 ++ w), [])).
    { unfold mt_top, prereq_or_conc_label. cbn [rseq].
      rewrite mt_seq, mt_bol0. cbv beta. rewrite mt_seq.
      rewrite (lit_i_eq "Pre-requisites").
      rewrite (mt_lit_i_run _ _ 0 l1 (w1 ++ l2 ++ w2 ++ l3 ++ w ++ r));
        [|reflexivity|rewrite Hl1; reflexivity].
      cbv beta. unfold sp.
      rewrite mt_seq.
      apply (mt_plus_run _ _ w1 _ (l2 ++ w2 ++ l3 ++ w ++ r)); [skipn_at|exact Hw1|exact Hw1s|exact Hh2|].
      cbv beta. rewrite mt_seq. rewrite (lit_i_eq "or").
      rewrite (mt_lit_i_run _ _ _ l2 (w2 ++ l3 ++ w ++ r)); [|skipn_at|rewrite Hl2; reflexivity].
      cbv beta. rewrite mt_seq.
      apply (mt_plus_run _ _ w2 _ (l3 ++ w ++ r)); [skipn_at|exact Hw2|exact Hw2s|exact Hh3|].
      cbv beta. rewrite mt_seq. rewrite (lit_i_eq "concurrent:").
      rewrite (mt_lit_i_run _ _ _ l3 (w ++ r)); [|skipn_at|rewrite Hl3; reflexivity].
      cbv beta.
      apply (mt_star_run _ _ w _ r); [skipn_at|exact Hws|exact Hr|].
      rewrite !length_app. f_equal. f_equal. lia. }
    change prereq_or_conc_label with (RSeq RBol (RSeq (lit_i "Pre-requisites")
      (rseq [rplus sp; lit_i "or"; rplus sp; lit_i "concurrent:"; RStar sp]))) in Hm |- *.
    rewrite (re_sub_bol_some _ _ _ _ Hm). f_equal.
    unfold T. rewrite !app_assoc. apply skipn_length_app.
Qed.

Lemma C8_witness :
  normalize (s "CSCE  1001") = strip (s "CSCE  1001")
  /\ normalize (s " Prerequisite:  CSCE  1001 ") = s "CSCE  1001"
  /\ normalize (s "PRE-REQUISITES  or concurrent: Prerequisite: CSCE 1001")
     = re_sub prerequisite_label [] (s "Prerequisite: CSCE 1001").
Proof.
  split; [|split].
  - apply (proj1 (proj2 (C8_normalize_trims_and_drops_prefix (s "CSCE  1001")))).
    vm_compute. discriminate.
  - apply (proj1 (proj2 (proj2 (C8_normalize_trims_and_drops_prefix
                                  (s " Prerequisite:  CSCE  1001 "))))
             (s "Prerequisite:") (s "  ") (s "CSCE  1001"));
      vm_compute; reflexivity.
  - apply (proj2 (proj2 (proj2 (C8_normalize_trims_and_drops_prefix
                                  (s "PRE-REQUISITES  or concurrent: Prerequisite: CSCE 1001"))))
             (s "PRE-REQUISITES") (s "  ") (s "or") (s " ") (s "concurrent:") (s " ")
             (s "Prerequisite: CSCE 1001"));
      vm_compute; first [reflexivity | discriminate].
Defined.

(** ** The batch loop *)

(** The string value of a field ([""] when absent). *)
Definition str_field (key : pystr) (course : jobj) : pystr :=
  match jget key course (JStr []) with JStr x => x | _ => [] end.

(** The record shape of the input interface: [prerequisites] and
    [concurrent] are strings (or absent). *)
Definition string_fields (course : jobj) : Prop :=
  (exists x, jget (s "prerequisites") course (JStr []) = JStr x)
  /\ (exists y, jget (s "concurrent") course (JStr []) = JStr y).

(** The AST stored for a course: the parser's result, or, when the parser
    raised [e], the error record. *)
Definition stored_ast (fuel : nat) (course : jobj) : prereq_ast :=
  let prereq_text := strip (str_field (s "prerequisites") course) in
  match parse fuel prereq_text (strip (str_field (s "concurrent") course)) with
  | Ok ast => ast
  | Raise e => mk_ast None None prereq_text (Some e)
  end.

Lemma main_loop_string_fields fuel courses prereq_text acc :
  Forall string_fields courses ->
  main_loop fuel courses prereq_text acc
  = Ok (acc ++ map (fun c => (c, stored_ast fuel c)) courses).
Proof.
  revert prereq_text acc. induction courses as [|c rest IH]; intros pt acc Hall.
  - simpl. rewrite app_nil_r. reflexivity.
  - inversion Hall as [|? ? [[x Hx] [y Hy]] Hrest]; subst.
    cbn [main_loop]. unfold process_course. rewrite Hx. cbn [py_strip bind]. rewrite Hy.
    cbn [py_strip bind map].
    replace (stored_ast fuel c) with
      (match parse fuel (strip x) (strip y) with
       | Ok ast => ast | Raise e => mk_ast None None (strip x) (Some e) end)
      by (unfold stored_ast, str_field; rewrite Hx, Hy; reflexivity).
    destruct (parse fuel (strip x) (strip y)) as [a|e];
      rewrite IH by exact Hrest; rewrite <- app_assoc; reflexivity.
Qed.

(** C7: for records whose [prerequisites] and [concurrent] fields are
    strings, the batch never aborts: every course is appended, in order;
    a course whose parse raised [e] gets an AST with no prerequisites, no
    corequisites, its own (stripped) prerequisite text as [raw_text] and
    [e] as the parse-error marker, and the other courses get their parse
    result. *)
Theorem C7_exception_recorded_per_course (fuel : nat) (courses : list jobj) :
  Forall string_fields courses ->
  parse_all fuel courses = Ok (map (fun c => (c, stored_ast fuel c)) courses)
  /\ (forall c e, In c courses ->
        parse fuel (strip (str_field (s "prerequisites") c))
                   (strip (str_field (s "concurrent") c)) = Raise e ->
        In (c, mk_ast None None (strip (str_field (s "prerequisites") c)) (Some e))
           (map (fun c => (c, stored_ast fuel c)) courses)).
Proof.
  intro Hall. split.
  - unfold parse_all. apply main_loop_string_fields. exact Hall.
  - intros c e Hin Hraise. apply in_map_iff. exists c. split; [|exact Hin].
    unfold stored_ast. rewrite Hraise. reflexivity.
Qed.

(** A batch whose first course makes the parser recurse without end
    (["()"] has both parentheses but no group). *)
Definition c7_batch : list jobj :=
  [[(s "title", JStr (s "CSCE 1001 - A")); (s "prerequisites", JStr (s "CSCE 1000 ()"))];
   [(s "title", JStr (s "CSCE 2001 - B")); (s "prerequisites", JStr (s "CSCE 1001"))]].

Lemma C7_witness :
  parse_all 50 c7_batch = Ok (map (fun c => (c, stored_ast 50 c)) c7_batch)
  /\ stored_ast 50 (nth 0 c7_batch []) = mk_ast None None (s "CSCE 1000 ()") (Some RecursionError).
Proof.
  split.
  - apply (C7_exception_recorded_per_course 50 c7_batch).
    repeat constructor; eexists; reflexivity.
  - vm_compute. reflexivity.
Defined.

(** ** Soundness of the matcher *)

Section Sound.
Variable txt : pystr.

(** The spans a pattern can match, zero-width assertions read as the
    empty pattern. *)
Inductive mr : regex -> nat -> nat -> Prop :=
| mr_empty i : mr REmpty i i
| mr_char p i c : nth_error txt i = Some c -> p c = true -> mr (RChar p) i (S i)
| mr_seq r1 r2 i j k : mr r1 i j -> mr r2 j k -> mr (RSeq r1 r2) i k
| mr_alt_l r1 r2 i j : mr r1 i j -> mr (RAlt r1 r2) i j
| mr_alt_r r1 r2 i j : mr r2 i j -> mr (RAlt r1 r2) i j
| mr_star_nil r i : mr (RStar r) i i
| mr_star_cons r i j k : mr r i j -> mr (RStar r) j k -> mr (RStar r) i k
| mr_lazy_nil r i : mr (RLazyStar r) i i
| mr_lazy_cons r i j k : mr r i j -> mr (RLazyStar r) j k -> mr (RLazyStar r) i k
| mr_bol i : mr RBol i i
| mr_eol i : mr REol i i
| mr_wordb i : mr RWordB i i
| mr_group n r i j : mr r i j -> mr (RGroup n r) i j.

End Sound.

Fixpoint groups_of (r : regex) : list (nat * regex) :=
  match r with
  | RSeq r1 r2 | RAlt r1 r2 => groups_of r1 ++ groups_of r2
  | RStar r1 | RLazyStar r1 => groups_of r1
  | RGroup n r1 => (n, r1) :: groups_of r1
  | _ => []
  end.

Definition cap_ok (txt : pystr) (r : regex) (e : nat * (nat * nat)) : Prop :=
  let '(n, (a, b)) := e in exists r', In (n, r') (groups_of r) /\ mr txt r' a b.

(** The groups every match of a pattern sets. *)
Fixpoint must_groups (r : regex) : list nat :=
  match r with
  | RSeq r1 r2 => must_groups r1 ++ must_groups r2
  | RGroup n r1 => n :: must_groups r1
  | _ => []
  end.

(** What a successful run of [mt r] from position [i] with captures [cs]
    guarantees about the position [j] and captures [cs'] it hands to its
    continuation. *)
Definition post (txt : pystr) (r : regex) (i : nat) (cs : caps) (j : nat) (cs' : caps) : Prop :=
  mr txt r i j /\ (forall e, In e cs' -> In e cs \/ cap_ok txt r e) /\ incl cs cs'
  /\ (forall n, In n (must_groups r) -> exists sp, In (n, sp) cs').

Lemma post_refl_empty txt r i cs :
  mr txt r i i -> must_groups r = [] -> post txt r i cs i cs.
Proof.
  intros Hm Hg. split; [exact Hm|]. split; [auto|]. split; [apply incl_refl|].
  rewrite Hg. intros n [].
Qed.

Lemma post_star txt r1 i j cs cs1 j2 cs2 :
  mr txt r1 i j -> (forall e, In e cs1 -> In e cs \/ cap_ok txt r1 e) -> incl cs cs1 ->
  post txt (RStar r1) j cs1 j2 cs2 -> post txt (RStar r1) i cs j2 cs2.
Proof.
  intros Hm Hc Hi [Hm2 [Hc2 [Hi2 _]]]. split; [econstructor; eauto|].
  split; [|split; [eapply incl_tran; eauto|intros n []]].
  intros e He. destruct (Hc2 e He) as [He1|?]; [|now right].
  destruct (Hc e He1) as [?|Hg]; [now left|now right].
Qed.

Lemma post_lazy txt r1 i j cs cs1 j2 cs2 :
  mr txt r1 i j -> (forall e, In e cs1 -> In e cs \/ cap_ok txt r1 e) -> incl cs cs1 ->
  post txt (RLazyStar r1) j cs1 j2 cs2 -> post txt (RLazyStar r1) i cs j2 cs2.
Proof.
  intros Hm Hc Hi [Hm2 [Hc2 [Hi2 _]]]. split; [econstructor; eauto|].
  split; [|split; [eapply incl_tran; eauto|intros n []]].
  intros e He. destruct (Hc2 e He) as [He1|?]; [|now right].
  destruct (Hc e He1) as [?|Hg]; [now left|now right].
Qed.

Lemma mt_sound txt r : forall k i cs x,
  mt txt r k i cs = Some x -> exists j cs', post txt r i cs j cs' /\ k j cs' = Some x.
Proof.
  induction r as [|p|r1 IH1 r2 IH2|r1 IH1 r2 IH2|r1 IH1|r1 IH1| | | |n r1 IH1];
    intros k i cs x H; cbn [mt] in H.
  - exists i, cs. split; [apply post_refl_empty; [constructor|reflexivity]|exact H].
  - unfold char_at in H. destruct (nth_error txt i) as [c|] eqn:E; [|discriminate].
    destruct (p c) eqn:Ep; [|discriminate].
    exists (S i), cs. split; [|exact H].
    split; [econstructor; eauto|]. split; [auto|]. split; [apply incl_refl|intros n []].
  - apply IH1 in H as [j [cs1 [[Hm1 [Hc1 [Hi1 Hg1]]] H]]].
    apply IH2 in H as [j2 [cs2 [[Hm2 [Hc2 [Hi2 Hg2]]] H]]].
    exists j2, cs2. split; [|exact H].
    split; [econstructor; eauto|]. split; [|split; [eapply incl_tran; eauto|]].
    + intros e He. destruct (Hc2 e He) as [He1|He1].
      * destruct (Hc1 e He1) as [?|Hg]; [now left|right].
        destruct e as [m [a b]]. destruct Hg as [r' [Hin Hr]]. exists r'.
        simpl. rewrite in_app_iff. auto.
      * right. destruct e as [m [a b]]. destruct He1 as [r' [Hin Hr]]. exists r'.
        simpl. rewrite in_app_iff. auto.
    + intros n Hn. simpl in Hn. apply in_app_iff in Hn as [Hn|Hn]; [|exact (Hg2 n Hn)].
      destruct (Hg1 n Hn) as [sp Hsp]. exists sp. exact (Hi2 _ Hsp).
  - destruct (mt txt r1 k i cs) as [y|] eqn:E1;
      [inversion H; subst; apply IH1 in E1 as [j [cs1 [[Hm [Hc [Hi _]]] Hk]]]
      |apply IH2 in H as [j [cs1 [[Hm [Hc [Hi _]]] Hk]]]];
      exists j, cs1; (split; [|exact Hk]);
      (split; [first [apply mr_alt_l; exact Hm | apply mr_alt_r; exact Hm]|]);
      (split; [|split; [exact Hi|intros n []]]);
      intros e He; destruct (Hc e He) as [?|Hg]; (try now left); right;
      destruct e as [m [a b]]; destruct Hg as [r' [Hin Hr]]; exists r';
      simpl; rewrite in_app_iff; auto.
  - match type of H with
    | context [if _ <? _ then ?L _ _ _ else None] => set (LP := L) in H
    end.
    assert (Hloop : forall f i cs, LP f i cs = Some x ->
              exists j cs', post txt (RStar r1) i cs j cs' /\ k j cs' = Some x).
    { induction f as [|f IHf]; intros i' cs0 H0; unfold LP in H0; cbn beta iota fix in H0;
        fold LP in H0.
      - exists i', cs0. split; [apply post_refl_empty; [constructor|reflexivity]|exact H0].
      - destruct (mt txt r1 _ i' cs0) as [y|] eqn:E1.
        + inversion H0; subst. apply IH1 in E1 as [j [cs1 [[Hm [Hc [Hi _]]] Hk]]].
          destruct (i' <? j); [|discriminate].
          apply IHf in Hk as [j2 [cs2 [Hp Hk2]]].
          exists j2, cs2. split; [eapply post_star; eauto|exact Hk2].
        + exists i', cs0. split; [apply post_refl_empty; [constructor|reflexivity]|exact H0]. }
    destruct (mt txt r1 _ i cs) as [y|] eqn:E1.
    + inversion H; subst. apply IH1 in E1 as [j [cs1 [[Hm [Hc [Hi _]]] Hk]]].
      destruct (i <? j); [|discriminate].
      apply Hloop in Hk as [j2 [cs2 [Hp Hk2]]].
      exists j2, cs2. split; [eapply post_star; eauto|exact Hk2].
    + exists i, cs. split; [apply post_refl_empty; [constructor|reflexivity]|exact H].
  - match type of H with
    | context [if _ <? _ then ?L _ _ _ else None] => set (LP := L) in H
    end.
    assert (Hloop : forall f i cs, LP f i cs = Some x ->
              exists j cs', post txt (RLazyStar r1) i cs j cs' /\ k j cs' = Some x).
    { induction f as [|f IHf]; intros i' cs0 H0; unfold LP in H0; cbn beta iota fix in H0;
        fold LP in H0.
      - exists i', cs0. split; [apply post_refl_empty; [constructor|reflexivity]|exact H0].
      - destruct (k i' cs0) as [y|] eqn:Ek.
        + inversion H0; subst. exists i', cs0.
          split; [apply post_refl_empty; [constructor|reflexivity]|exact Ek].
        + apply IH1 in H0 as [j [cs1 [[Hm [Hc [Hi _]]] Hk]]].
          destruct (i' <? j); [|discriminate].
          apply IHf in Hk as [j2 [cs2 [Hp Hk2]]].
          exists j2, cs2. split; [eapply post_lazy; eauto|exact Hk2]. }
    destruct (k i cs) as [y|] eqn:Ek.
    + inversion H; subst. exists i, cs.
      split; [apply post_refl_empty; [constructor|reflexivity]|exact Ek].
    + apply IH1 in H as [j [cs1 [[Hm [Hc [Hi _]]] Hk]]].
      destruct (i <? j); [|discriminate].
      apply Hloop in Hk as [j2 [cs2 [Hp Hk2]]].
      exists j2, cs2. split; [eapply post_lazy; eauto|exact Hk2].
  - destruct (i =? 0); [|discriminate].
    exists i, cs. split; [apply post_refl_empty; [constructor|reflexivity]|exact H].
  - destruct (_ || _); [|discriminate].
    exists i, cs. split; [apply post_refl_empty; [constructor|reflexivity]|exact H].
  - destruct (xorb _ _); [|discriminate].
    exists i, cs. split; [apply post_refl_empty; [constructor|reflexivity]|exact H].
  - apply IH1 in H as [j [cs1 [[Hm [Hc [Hi Hg]]] Hk]]].
    exists j, ((n, (i, j)) :: cs1). split; [|exact Hk].
    split; [constructor; exact Hm|]. split; [|split].
    + intros e [<-|He].
      * right. exists r1. split; [now left|exact Hm].
      * destruct (Hc e He) as [?|Hg']; [now left|right].
        destruct e as [m [a b]]. destruct Hg' as [r' [Hin Hr]]. exists r'.
        split; [now right|exact Hr].
    + intros e He. right. exact (Hi e He).
    + intros m [<-|Hm']; [exists (i, j); now left|].
      destruct (Hg m Hm') as [sp Hsp]. exists sp. now right.
Qed.

Lemma search_from_sound t fuel r pos a b cs :
  search_from t fuel r pos = Some (a, b, cs) -> post t r a [] b cs.
Proof.
  revert pos. induction fuel as [|f IH]; intros pos H; cbn [search_from] in H.
  all: destruct (mt_top t r pos) as [[j cs0]|] eqn:E.
  all: try (injection H as <- <- <-; unfold mt_top in E;
            apply mt_sound in E as [j' [cs' [Hp Hk]]]; injection Hk as <- <-; exact Hp).
  - discriminate.
  - destruct (pos <? length t); [exact (IH _ H)|discriminate].
Qed.

Lemma re_search_sound r t a b cs :
  re_search r t = Some (a, b, cs) -> post t r a [] b cs.
Proof. apply search_from_sound. Qed.

Lemma all_matches_sound t fuel r pos a b cs :
  In (a, b, cs) (all_matches t fuel r pos) -> post t r a [] b cs.
Proof.
  revert pos. induction fuel as [|f IH]; intros pos H; cbn [all_matches] in H; [destruct H|].
  destruct (search_from t (length t) r pos) as [[[a' b'] cs']|] eqn:E; [|destruct H].
  destruct H as [H|H]; [|exact (IH _ H)].
  injection H as <- <- <-. exact (search_from_sound _ _ _ _ _ _ _ E).
Qed.

Lemma matches_sound r t a b cs :
  In (a, b, cs) (matches r t) -> post t r a [] b cs.
Proof. apply all_matches_sound. Qed.

Lemma group_in n cs sp : group n cs = Some sp -> In (n, sp) cs.
Proof.
  induction cs as [|[m sp0] cs IH]; simpl; [discriminate|].
  destruct (m =? n) eqn:E.
  - apply Nat.eqb_eq in E. subst m. intro H. injection H as <-. now left.
  - intro H. right. exact (IH H).
Qed.

Lemma group_some n cs sp : In (n, sp) cs -> exists sp', group n cs = Some sp'.
Proof.
  induction cs as [|[m sp0] cs IH]; simpl; [intros []|].
  destruct (m =? n) eqn:E; [eauto|].
  intros [H|H]; [injection H as -> ->; rewrite Nat.eqb_refl in E; discriminate|exact (IH H)].
Qed.

(** ** Slices *)

Lemma slice_app a j b t : a <= j -> j <= b -> slice a b t = slice a j t ++ slice j b t.
Proof.
  intros H1 H2. unfold slice.
  replace (b - a) with ((j - a) + (b - j)) by lia.
  assert (Hs : skipn j t = skipn (j - a) (skipn a t))
    by (rewrite skipn_skipn; f_equal; lia).
  rewrite Hs. generalize (skipn a t) as l. generalize (j - a) (b - j).
  intros n m l. revert l. induction n as [|n IH]; intro l; [reflexivity|].
  destruct l as [|x l]; simpl; [destruct m; reflexivity|]. f_equal. apply IH.
Qed.

Lemma skipn_nth a (t : pystr) c : nth_error t a = Some c -> skipn a t = c :: skipn (S a) t.
Proof.
  revert t. induction a as [|a IH]; intros t Hc; destruct t as [|x t]; try discriminate.
  - simpl in *. injection Hc as ->. reflexivity.
  - simpl in Hc |- *. exact (IH t Hc).
Qed.

Lemma slice_cons a b t c : nth_error t a = Some c -> a < b -> slice a b t = c :: slice (S a) b t.
Proof.
  intros Hc Hab. unfold slice. replace (b - a) with (S (b - S a)) by lia.
  rewrite (skipn_nth a t c Hc). reflexivity.
Qed.

Lemma slice_nil a t : slice a a t = [].
Proof. unfold slice. rewrite Nat.sub_diag. reflexivity. Qed.

Definition all_p (p : ascii -> bool) (l : pystr) : Prop := Forall (fun c => p c = true) l.

Lemma mr_rseq_cons t r rs i k :
  mr t (rseq (r :: rs)) i k -> exists j, mr t r i j /\ mr t (rseq rs) j k.
Proof.
  destruct rs as [|r' rs]; simpl.
  - intro H. exists k. split; [exact H|constructor].
  - intro H. inversion H; subst. eauto.
Qed.

Lemma mr_rrep_char t n p a b :
  mr t (rrep n (RChar p)) a b -> b = a + n /\ length (slice a b t) = n /\ all_p p (slice a b t).
Proof.
  revert a. induction n as [|n IH]; intros a H.
  - inversion H; subst. rewrite slice_nil. repeat split; [lia|constructor].
  - unfold rrep in H. simpl repeat in H. apply mr_rseq_cons in H as [j [Hc Hr]].
    inversion Hc as [| p' i c Hnth Hp | | | | | | | | | | |]; subst.
    destruct (IH _ Hr) as [Hb [Hl Ha]]. subst b.
    rewrite (slice_cons a (S a + n) t c Hnth) by lia.
    split; [lia|split; [cbn [length]; rewrite Hl; reflexivity|constructor; assumption]].
Qed.

Lemma mr_star_char t p a b :
  mr t (RStar (RChar p)) a b -> a <= b /\ all_p p (slice a b t).
Proof.
  intro H. remember (RStar (RChar p)) as r eqn:Er. revert Er.
  induction H; intro Er; try discriminate.
  - rewrite slice_nil. split; [lia|constructor].
  - injection Er as ->. destruct (IHmr2 eq_refl) as [Hle Ha].
    inversion H as [| p' i' c Hnth Hp | | | | | | | | | | |]; subst.
    rewrite (slice_cons i k t c Hnth) by lia. split; [lia|constructor; assumption].
Qed.

(** ** Course codes *)

(** A code as [_parse_atomic] and [_parse_concurrent] store it: four
    letters [A-Z], whitespace other than [' '] (which [replace(" ", "")]
    removes), four digits. *)
Definition course_code_shape (x : pystr) : Prop :=
  exists u w d, x = u ++ w ++ d /\ length u = 4 /\ all_p is_upper u
    /\ all_p (fun c => is_space c && negb (Ascii.eqb c " ")) w
    /\ length d = 4 /\ all_p is_digit d.

Lemma mr_wordb_inv t i j : mr t RWordB i j -> i = j.
Proof. intro H. inversion H. reflexivity. Qed.

Lemma course_pattern_span t a b :
  mr t COURSE_PATTERN a b ->
  exists u w d, slice a b t = u ++ w ++ d /\ length u = 4 /\ all_p is_upper u
    /\ all_p is_space w /\ length d = 4 /\ all_p is_digit d.
Proof.
  unfold COURSE_PATTERN, upc, sp, dgt. intro H.
  apply mr_rseq_cons in H as [j0 [H0 H]]. apply mr_wordb_inv in H0. subst j0.
  apply mr_rseq_cons in H as [j1 [H1 H]].
  apply mr_rseq_cons in H as [j2 [H2 H]].
  apply mr_rseq_cons in H as [j3 [H3 H]].
  simpl rseq in H. apply mr_wordb_inv in H. subst j3.
  apply mr_rrep_char in H1 as [E1 [L1 A1]].
  apply mr_star_char in H2 as [E2 A2].
  apply mr_rrep_char in H3 as [E3 [L3 A3]].
  exists (slice a j1 t), (slice j1 j2 t), (slice j2 b t).
  rewrite (slice_app a j1 b t) by lia. rewrite (slice_app j1 j2 b t) by lia.
  repeat split; assumption.
Qed.

Lemma replace_space_fuel f t :
  length t < f ->
  replace_fuel f (s " ") [] t = filter (fun c => negb (Ascii.eqb c " ")) t.
Proof.
  revert f. induction t as [|c t IH]; intros f Hf; destruct f as [|f]; try (simpl in Hf; lia).
  - reflexivity.
  - cbn [replace_fuel]. simpl in Hf.
    replace (startswith (s " ") (c :: t)) with (Ascii.eqb " " c)
      by (cbn; rewrite andb_true_r; reflexivity).
    rewrite Ascii.eqb_sym. cbn [filter].
    destruct (Ascii.eqb c " "); simpl; rewrite IH by lia; reflexivity.
Qed.

Lemma replace_space t : replace (s " ") [] t = filter (fun c => negb (Ascii.eqb c " ")) t.
Proof. apply replace_space_fuel. lia. Qed.

Lemma filter_all_p (p q : ascii -> bool) l :
  all_p p l -> (forall c, p c = true -> q c = true) -> filter q l = l.
Proof.
  intros Hl Hpq. induction Hl as [|c l Hc Hl IH]; [reflexivity|].
  simpl. rewrite (Hpq c Hc), IH. reflexivity.
Qed.

Lemma all_p_filter (p : ascii -> bool) l : all_p (fun c => p c) (filter p l).
Proof.
  induction l as [|c l IH]; simpl; [constructor|].
  destruct (p c) eqn:E; [constructor; assumption|exact IH].
Qed.

Lemma not_space_upper c : is_upper c = true -> negb (Ascii.eqb c " ") = true.
Proof. destruct (Ascii.eqb_spec c " "); [subst; discriminate|reflexivity]. Qed.

Lemma not_space_digit c : is_digit c = true -> negb (Ascii.eqb c " ") = true.
Proof. destruct (Ascii.eqb_spec c " "); [subst; discriminate|reflexivity]. Qed.

Lemma course_match_code t a b :
  mr t COURSE_PATTERN a b -> course_code_shape (replace (s " ") [] (slice a b t)).
Proof.
  intro H. apply course_pattern_span in H as [u [w [d [E [Lu [Au [Aw [Ld Ad]]]]]]]].
  rewrite E, replace_space, !filter_app.
  rewrite (filter_all_p _ _ u Au not_space_upper), (filter_all_p _ _ d Ad not_space_digit).
  exists u, (filter (fun c => negb (Ascii.eqb c " ")) w), d.
  repeat split; try assumption.
  unfold all_p. rewrite Forall_forall. intros c Hc.
  apply filter_In in Hc as [Hc Hn]. unfold all_p in Aw. rewrite Forall_forall in Aw.
  rewrite (Aw c Hc), Hn. reflexivity.
Qed.

Lemma findall_course_code t c :
  In c (re_findall COURSE_PATTERN t) -> course_code_shape (replace (s " ") [] c).
Proof.
  unfold re_findall. intro H. apply in_map_iff in H as [[[a b] cs] [<- Hin]].
  apply matches_sound in Hin as [Hm _]. exact (course_match_code t a b Hm).
Qed.

(** A code as [extract_course_code_from_title] returns it: four letters
    [A-Z] then four digits. *)
Definition code8 (x : pystr) : Prop :=
  exists u d, x = u ++ d /\ length u = 4 /\ all_p is_upper u /\ length d = 4 /\ all_p is_digit d.

Lemma groups_of_title_code_pat :
  groups_of title_code_pat = [(1, rrep 4 upc); (2, rrep 4 dgt)].
Proof. reflexivity. Qed.

Lemma title_group_text t a b cs n r :
  post t title_code_pat a [] b cs -> In n (must_groups title_code_pat) ->
  In (n, r) (groups_of title_code_pat) ->
  (forall r' x y, In (n, r') (groups_of title_code_pat) -> mr t r' x y ->
     r' = r) ->
  exists x y, group_text t n (a, b, cs) = slice x y t /\ mr t r x y.
Proof.
  intros [_ [Hc [_ Hg]]] Hn Hr Huniq.
  destruct (Hg n Hn) as [sp Hsp]. destruct (group_some n cs sp Hsp) as [[x y] Hxy].
  pose proof (group_in _ _ _ Hxy) as Hin. destruct (Hc _ Hin) as [[]|[r' [Hr' Hm]]].
  exists x, y. unfold group_text.
  destruct n as [|n]; [simpl in Hn; lia|]. cbn [Nat.eqb]. rewrite Hxy. split; [reflexivity|].
  rewrite <- (Huniq r' x y Hr' Hm). exact Hm.
Qed.

Lemma extract_code_shape (t : pystr) :
  extract_course_code_from_title t = [] \/ code8 (extract_course_code_from_title t).
Proof.
  unfold extract_course_code_from_title.
  destruct (re_search title_code_pat t) as [[[a b] cs]|] eqn:E; [right|now left].
  apply re_search_sound in E.
  assert (Hu : forall n r r', In (n, r) (groups_of title_code_pat) ->
                 In (n, r') (groups_of title_code_pat) -> r' = r).
  { intros n r r'. rewrite groups_of_title_code_pat.
    intros [H1|[H1|[]]] [H2|[H2|[]]]; injection H1 as <- <-; injection H2; congruence. }
  destruct (title_group_text t a b cs 1 (rrep 4 upc) E) as [x1 [y1 [G1 M1]]];
    [simpl; auto|rewrite groups_of_title_code_pat; now left|
     intros r' x y Hr' _; exact (Hu 1 (rrep 4 upc) r' ltac:(rewrite groups_of_title_code_pat; now left) Hr')|].
  destruct (title_group_text t a b cs 2 (rrep 4 dgt) E) as [x2 [y2 [G2 M2]]];
    [simpl; auto|rewrite groups_of_title_code_pat; right; now left|
     intros r' x y Hr' _; exact (Hu 2 (rrep 4 dgt) r' ltac:(rewrite groups_of_title_code_pat; right; now left) Hr')|].
  rewrite G1, G2. unfold upc, dgt in *.
  apply mr_rrep_char in M1 as [_ [L1 A1]]. apply mr_rrep_char in M2 as [_ [L2 A2]].
  exists (slice x1 y1 t), (slice x2 y2 t). repeat split; assumption.
Qed.

(** ** The prerequisites tree the parser builds *)

Definition categories : list pystr :=
  map s ["standing"; "approval"; "exemption"; "preparation"; "other"]%string.

(** A prerequisites tree: no [concurrent] node; every [course] leaf has
    both flags set, [is_optional] false, and a well-formed code; every
    [text_condition] has one of the five categories, and category
    ["other"] only for a condition longer than five characters. *)
Inductive ptree : node -> Prop :=
| pt_course code b : course_code_shape code -> ptree (NCourse code (Some b) (Some false))
| pt_and l : Forall ptree l -> ptree (NAnd l)
| pt_or l : Forall ptree l -> ptree (NOr l)
| pt_group_none : ptree (NGroup None)
| pt_group e : ptree e -> ptree (NGroup (Some e))
| pt_text c k : In k categories -> (k <> s "other" \/ 5 < length c) -> ptree (NText c k).

Definition ptree_opt (o : option node) : Prop :=
  match o with Some n => ptree n | None => True end.

Lemma classify_category t : In (classify t) categories.
Proof.
  unfold classify, text_conditions. cbn [fold_left].
  repeat match goal with |- context [if ?b then _ else _] => destruct b end;
    cbn; tauto.
Qed.

Lemma parse_atomic_ptree t n : parse_atomic t = Some n -> ptree n.
Proof.
  unfold parse_atomic. destruct t as [|a t]; [discriminate|].
  match goal with |- context [let '(_, _) := ?m in _] => destruct m as [ic text] end.
  destruct (re_search COURSE_PATTERN text) as [[[x y] cs]|] eqn:E.
  - intro H. injection H as <-. constructor.
    apply re_search_sound in E as [Hm _]. exact (course_match_code text x y Hm).
  - destruct (negb (str_eqb (classify (lower text)) (s "other")) || (5 <? length text)) eqn:G;
      [|discriminate].
    intro H. injection H as <-. constructor; [apply classify_category|].
    apply orb_true_iff in G as [G|G].
    + left. apply negb_true_iff, str_eqb_false in G. exact G.
    + right. apply Nat.ltb_lt. exact G.
Qed.

Lemma filter_some_ptree {A} (f : A -> option node) l :
  (forall x n, f x = Some n -> ptree n) -> Forall ptree (filter_some f l).
Proof.
  intro Hf. induction l as [|x l IH]; simpl; [constructor|].
  destruct (f x) eqn:E; [constructor; eauto|exact IH].
Qed.

Lemma parse_or_expression_ptree t n : parse_or_expression t = Some n -> ptree n.
Proof.
  unfold parse_or_expression. destruct t as [|a t]; [discriminate|].
  pose proof (filter_some_ptree (fun part => parse_atomic (strip part))
                (re_split or_pat (a :: t)) (fun x => parse_atomic_ptree _)) as Hall.
  destruct (1 <? length _); [|apply parse_atomic_ptree].
  destruct (filter_some _ _) as [|c1 [|c2 rest]].
  - apply parse_atomic_ptree.
  - intro H. injection H as <-. inversion Hall; auto.
  - intro H. injection H as <-. constructor. exact Hall.
Qed.

Lemma rp_node_ptree pe pm :
  (forall t o, pe t = Ok o -> ptree_opt o) ->
  forall n n', ptree n -> rp_node pe pm n = Ok n' -> ptree n'.
Proof.
  intros Hpe n. induction n as [c a b|l IHl|l IHl| |e IHe|c k IHc|c k] using node_ind';
    intros n' Hp Hrp; cbn [rp_node] in Hrp.
  - destruct (startswith (s "~~~GROUP") c); [|injection Hrp as <-; exact Hp].
    destruct (assoc c pm) as [gt|]; [|injection Hrp as <-; exact Hp].
    destruct (pe gt) as [o|e] eqn:E; cbn [bind] in Hrp; [|discriminate].
    injection Hrp as <-. apply Hpe in E. destruct o; constructor; exact E.
  - inversion Hp as [|l0 Hall| | | |]; subst.
    destruct (py_map (rp_node pe pm) l) as [cs|e] eqn:E; cbn [bind] in Hrp; [|discriminate].
    injection Hrp as <-.
    destruct (py_map_ok _ ptree ptree l cs
                (Forall_impl _ (fun x Hx Hw y Hy => Hx y Hw Hy) IHl) Hall E) as [_ Hcs].
    constructor. exact Hcs.
  - inversion Hp as [|l0 Hall|l0 Hall| | |]; subst.
    destruct (py_map (rp_node pe pm) l) as [cs|e] eqn:E; cbn [bind] in Hrp; [|discriminate].
    injection Hrp as <-.
    destruct (py_map_ok _ ptree ptree l cs
                (Forall_impl _ (fun x Hx Hw y Hy => Hx y Hw Hy) IHl) Hall E) as [_ Hcs].
    constructor. exact Hcs.
  - injection Hrp as <-. constructor.
  - inversion Hp; subst.
    destruct (rp_node pe pm e) as [e'|x] eqn:E; cbn [bind] in Hrp; [|discriminate].
    injection Hrp as <-. constructor. eauto.
  - inversion Hp.
  - injection Hrp as <-. exact Hp.
Qed.

Lemma parse_expression_ptree fuel t o : parse_expression fuel t = Ok o -> ptree_opt o.
Proof.
  revert t o. induction fuel as [|f IH]; intros t o; cbn [parse_expression]; [discriminate|].
  destruct t as [|a t]; [intro H; injection H as <-; exact I|].
  destruct (contains (s "(") (normalize (a :: t)) && contains (s ")") (normalize (a :: t))).
  - destruct (re_sub_st group_pattern _ _ _) as [modified [pm cnt]].
    destruct (parse_expression f modified) as [r|e] eqn:E; cbn [bind]; [|discriminate].
    destruct r as [n|]; cbn [replace_placeholders]; [|intro H; injection H as <-; exact I].
    destruct (rp_node (parse_expression f) pm n) as [n'|e] eqn:E2; cbn [bind]; [|discriminate].
    intro H. injection H as <-. exact (rp_node_ptree _ _ IH n n' (IH _ _ E) E2).
  - pose proof (filter_some_ptree (fun part => parse_or_expression (strip part))
                  (split_on_and (normalize (a :: t))) (fun x => parse_or_expression_ptree _))
      as Hall.
    assert (Hfb : ptree_opt (parse_or_expression (normalize (a :: t)))).
    { destruct (parse_or_expression _) eqn:E'; [exact (parse_or_expression_ptree _ _ E')|exact I]. }
    destruct (1 <? length _); [|intro H; injection H as <-; exact Hfb].
    destruct (filter_some _ _) as [|c1 [|c2 rest]].
    + intro H. injection H as <-. exact Hfb.
    + intro H. injection H as <-. inversion Hall; auto.
    + intro H. injection H as <-. constructor. exact Hall.
Qed.

(** ** The corequisites tree the parser builds *)

(** A [course] leaf built by [_parse_concurrent]. *)
Definition conc_leaf (n : node) : Prop :=
  exists code, n = NCourse code None None /\ course_code_shape code.

(** A node built by [_parse_concurrent]. *)
Definition conc_node (n : node) : Prop :=
  exists c note, n = NConcurrent c note
    /\ (conc_leaf c \/ exists l, c = NOr l /\ 2 <= length l /\ Forall conc_leaf l).

Definition coreq_shape (o : option node) : Prop :=
  match o with
  | None => True
  | Some n => conc_node n \/ exists x y, n = NAnd [x; y] /\ conc_node x /\ conc_node y
  end.

Lemma parse_concurrent_shape t n : parse_concurrent t = Some n -> conc_node n.
Proof.
  unfold parse_concurrent. destruct t as [|a t]; [discriminate|].
  pose proof (findall_course_code (a :: t)) as Hf.
  destruct (re_findall COURSE_PATTERN (a :: t)) as [|c1 [|c2 rest]] eqn:E; [discriminate| |].
  - intro H. injection H as <-. eexists _, _. split; [reflexivity|left].
    eexists. split; [reflexivity|]. apply Hf. now left.
  - intro H. injection H as <-. eexists _, _. split; [reflexivity|right].
    eexists. split; [reflexivity|]. split; [simpl; lia|].
    apply Forall_forall. intros x Hx. change (In x (map course_leaf (c1 :: c2 :: rest))) in Hx.
    apply in_map_iff in Hx as [c [<- Hc]].
    eexists. split; [reflexivity|]. exact (Hf c Hc).
Qed.

Lemma split_prereq_and_concurrent_shape fuel t p c :
  split_prereq_and_concurrent fuel t = Ok (p, c) -> ptree_opt p /\ (c = None \/ exists n, c = Some n /\ conc_node n).
Proof.
  assert (Hc : forall x, parse_concurrent x = None \/ exists n, parse_concurrent x = Some n /\ conc_node n).
  { intro x. destruct (parse_concurrent x) eqn:E; [right; eexists; split; [reflexivity|]; eapply parse_concurrent_shape; eauto|now left]. }
  unfold split_prereq_and_concurrent. destruct t as [|a t].
  { intro H. injection H as <- <-. split; [exact I|now left]. }
  destruct (_ || _).
  { intro H. injection H as <- <-. split; [exact I|exact (Hc (a :: t))]. }
  destruct (re_search concurrent_split_pat (a :: t)) as [[[x y] cs]|].
  - assert (Hcp : forall o, o = match strip (skipn y (a :: t)) with
                                | [] => None | _ => parse_concurrent (strip (skipn y (a :: t))) end ->
                  o = None \/ exists n, o = Some n /\ conc_node n).
    { intros o ->. destruct (strip (skipn y (a :: t))) as [|b' u']; [now left|exact (Hc (b' :: u'))]. }
    destruct (strip (firstn x (a :: t))) as [|b u] eqn:Ep.
    + cbn [bind]. intro H. injection H as <- <-. split; [exact I|apply Hcp; reflexivity].
    + destruct (parse_expression fuel (b :: u)) as [o|e] eqn:E; cbn [bind]; [|discriminate].
      intro H. injection H as <- <-. split; [eapply parse_expression_ptree; eauto|apply Hcp; reflexivity].
  - destruct (parse_expression fuel (a :: t)) as [o|e] eqn:E; cbn [bind]; [|discriminate].
    intro H. injection H as <- <-. split; [eapply parse_expression_ptree; eauto|now left].
Qed.

Lemma parse_prereq_ptree (fuel : nat) (p c : pystr) (a : prereq_ast) :
  parse fuel p c = Ok a -> ptree_opt (prerequisites a).
Proof.
  unfold parse. destruct p as [|x p], c as [|y c]; [intro H; injection H as <-; exact I| | |].
  all: destruct (split_prereq_and_concurrent fuel (strip _)) as [[pn cn]|e] eqn:E;
       cbn [bind]; [|discriminate].
  all: apply split_prereq_and_concurrent_shape in E as [Hp _].
  all: intro H; injection H as <-; exact Hp.
Qed.

(** The corequisites [parse] returns are absent, one [concurrent] node,
    or an [and] of exactly two of them; each [concurrent] node wraps one
    flagless [course] leaf or an [or] of at least two, with codes of four
    letters, whitespace other than spaces, and four digits. *)
Theorem parse_corequisites_shape (fuel : nat) (p c : pystr) (a : prereq_ast) :
  parse fuel p c = Ok a -> coreq_shape (corequisites a).
Proof.
  assert (Hcf : forall (q : list ascii) cn, (cn = None \/ exists n, cn = Some n /\ conc_node n) ->
            coreq_shape (match parse_concurrent q with
                         | Some cf => match cn with
                                      | Some n => Some (NAnd [n; cf])
                                      | None => Some cf
                                      end
                         | None => cn
                         end)).
  { intros q cn Hcn. destruct (parse_concurrent q) as [cf|] eqn:Ecf.
    - apply parse_concurrent_shape in Ecf.
      destruct Hcn as [->|[n [-> Hn]]]; [left; exact Ecf|].
      right. exists n, cf. auto.
    - destruct Hcn as [->|[n [-> Hn]]]; [exact I|left; exact Hn]. }
  unfold parse. destruct p as [|x p], c as [|y c]; [intro H; injection H as <-; exact I| | |].
  all: destruct (split_prereq_and_concurrent fuel (strip _)) as [[pn cn]|e] eqn:E;
       cbn [bind]; [|discriminate].
  all: apply split_prereq_and_concurrent_shape in E as [_ Hcn].
  all: intro H; injection H as <-; cbn [corequisites].
  all: first [exact (Hcf (y :: c) cn Hcn)
             | destruct Hcn as [->|[n [-> Hn]]]; [exact I|left; exact Hn]].
Qed.

(** ** parse: edge behaviour *)

(** A prerequisite text that is empty after [strip] never makes [parse]
    raise: there is no prerequisites tree, and the corequisites come from
    the concurrent field alone. *)
Theorem parse_blank_prerequisites (fuel : nat) (p c : pystr) :
  strip p = [] ->
  parse fuel p c
  = Ok (mk_ast None (parse_concurrent c)
               (match c with [] => [] | _ => s " | Concurrent: " ++ c end) None).
Proof.
  intro Hs. unfold parse. rewrite Hs.
  destruct p as [|x p], c as [|y c]; try reflexivity.
  all: cbn [split_prereq_and_concurrent bind]; cbv beta iota.
  all: destruct (parse_concurrent (y :: c)); reflexivity.
Qed.

(** The corequisites of a text that starts with ["concurrent"] or
    ["prerequisite: concurrent"] and of the concurrent field, merged as
    [parse] merges them. *)
Definition merge_concurrent (from_text from_field : option node) : option node :=
  match from_field with
  | Some cf => match from_text with Some cn => Some (NAnd [cn; cf]) | None => Some cf end
  | None => from_text
  end.

(** A prerequisite text that starts (case-insensitively, after [strip])
    with ["concurrent"] or ["prerequisite: concurrent"] never makes
    [parse] raise and gives no prerequisites tree: the whole text is read
    as a concurrent requirement, merged with the concurrent field's. *)
Theorem parse_concurrent_only_text (fuel : nat) (p c : pystr) :
  startswith (s "concurrent") (lower (strip p))
  || startswith (s "prerequisite: concurrent") (lower (strip p)) = true ->
  exists a, parse fuel p c = Ok a /\ prerequisites a = None
            /\ corequisites a = merge_concurrent (parse_concurrent (strip p)) (parse_concurrent c).
Proof.
  intro H. destruct (strip p) as [|b u] eqn:Hs; [discriminate|].
  assert (Hp : p <> []) by (intro; subst p; discriminate).
  assert (Hsp : split_prereq_and_concurrent fuel (strip p) = Ok (None, parse_concurrent (b :: u))).
  { rewrite Hs. unfold split_prereq_and_concurrent. rewrite H. reflexivity. }
  unfold parse. destruct p as [|x p]; [congruence|].
  rewrite Hsp. cbn [bind]. destruct c as [|y c].
  - eexists. split; [reflexivity|]. split; reflexivity.
  - eexists. split; [reflexivity|]. split; [reflexivity|].
    cbn [corequisites]. unfold merge_concurrent.
    destruct (parse_concurrent (y :: c)); reflexivity.
Qed.

(** A normalized text containing both ["("] and [")"] in which
    [\([^()]+\)] finds no group (such as ["()"] or [")("]) is handed
    back unchanged to [_parse_expression]: the recursion never ends and
    raises [RecursionError] whatever the depth limit. *)
Theorem parse_expression_unmatched_parens_diverge (t : pystr) :
  t <> [] -> normalize t = t ->
  contains (s "(") t && contains (s ")") t = true ->
  matches group_pattern t = [] ->
  forall fuel, parse_expression fuel t = Raise RecursionError.
Proof.
  intros Hne Hn Hc Hm fuel. induction fuel as [|f IH]; [reflexivity|].
  cbn [parse_expression]. destruct t as [|a t]; [congruence|].
  rewrite Hn, Hc. unfold re_sub_st. rewrite Hm. cbn [skipn]. rewrite IH. reflexivity.
Qed.

(** ** The batch loop: error paths *)

(** When the first course's [prerequisites] field is not a string (for
    example JSON null), [.strip()] raises before [prereq_text] is ever
    bound, and the [except] block raises [UnboundLocalError]: the batch
    aborts. *)
Theorem parse_all_first_non_string_aborts (fuel : nat) (c : jobj) (rest : list jobj) :
  (forall x, jget (s "prerequisites") c (JStr []) <> JStr x) ->
  parse_all fuel (c :: rest) = Raise UnboundLocalError.
Proof.
  intro H. unfold parse_all. cbn [main_loop]. unfold process_course.
  destruct (jget (s "prerequisites") c (JStr [])) as [x| |n]; [exfalso; exact (H x eq_refl)| |];
    reflexivity.
Qed.

(** When a later course's [prerequisites] field is not a string, its
    error record carries the previous course's prerequisite text as
    [raw_text] (the stale value of [prereq_text]), and the batch goes
    on. *)
Theorem parse_all_stale_raw_text (fuel : nat) (c1 c2 : jobj) (rest : list jobj) :
  string_fields c1 -> (forall x, jget (s "prerequisites") c2 (JStr []) <> JStr x) ->
  Forall string_fields rest ->
  parse_all fuel (c1 :: c2 :: rest)
  = Ok ([(c1, stored_ast fuel c1);
         (c2, mk_ast None None (strip (str_field (s "prerequisites") c1)) (Some AttributeError))]
        ++ map (fun c => (c, stored_ast fuel c)) rest).
Proof.
  intros [[x Hx] [y Hy]] H2 Hrest. unfold parse_all. cbn [main_loop].
  unfold process_course at 1. rewrite Hx. cbn [py_strip bind]. rewrite Hy. cbn [py_strip bind].
  assert (Hst : stored_ast fuel c1
                = match parse fuel (strip x) (strip y) with
                  | Ok ast => ast | Raise e => mk_ast None None (strip x) (Some e) end)
    by (unfold stored_ast, str_field; rewrite Hx, Hy; reflexivity).
  assert (Hsf : str_field (s "prerequisites") c1 = x) by (unfold str_field; rewrite Hx; reflexivity).
  rewrite Hst, Hsf.
  destruct (parse fuel (strip x) (strip y)) as [a|e]; cbn [main_loop];
    unfold process_course;
    (destruct (jget (s "prerequisites") c2 (JStr [])) as [z| |n]; [exfalso; exact (H2 z eq_refl)| |]);
    cbn [py_strip]; rewrite main_loop_string_fields by exact Hrest; reflexivity.
Qed.

(** A course whose [prerequisites] field is a string but whose
    [concurrent] field is not is recorded with no trees, its own stripped
    prerequisite text and the [AttributeError] marker. *)
Theorem main_loop_non_string_concurrent (fuel : nat) (c : jobj) (rest : list jobj)
  (prereq_text : option pystr) (acc : list (jobj * prereq_ast)) (x : pystr) :
  jget (s "prerequisites") c (JStr []) = JStr x ->
  (forall y, jget (s "concurrent") c (JStr []) <> JStr y) ->
  main_loop fuel (c :: rest) prereq_text acc
  = main_loop fuel rest (Some (strip x))
              (acc ++ [(c, mk_ast None None (strip x) (Some AttributeError))]).
Proof.
  intros Hx Hy. cbn [main_loop]. unfold process_course. rewrite Hx. cbn [py_strip bind].
  destruct (jget (s "concurrent") c (JStr [])) as [y| |n]; [exfalso; exact (Hy y eq_refl)| |];
    reflexivity.
Qed.

(** ** The graph builder: order, duplicates, catalog order *)

Definition lt_str (a b : pystr) : Prop := str_ltb a b = true.

Lemma str_ltb_irrefl a : str_ltb a a = false.
Proof.
  induction a as [|x a IH]; [reflexivity|]. simpl. rewrite Nat.ltb_irrefl, Nat.eqb_refl, IH. reflexivity.
Qed.

Lemma str_ltb_trans a b c : str_ltb a b = true -> str_ltb b c = true -> str_ltb a c = true.
Proof.
  revert b c. induction a as [|x a IH]; intros [|y b] [|z c]; simpl; try discriminate; auto.
  rewrite !orb_true_iff, !andb_true_iff, !Nat.ltb_lt, !Nat.eqb_eq.
  intros [H1|[H1 H1']] [H2|[H2 H2']]; [left; lia|left; lia|left; lia|].
  right. split; [lia|eauto].
Qed.

Lemma str_ltb_total a b : a <> b -> str_ltb a b = false -> str_ltb b a = true.
Proof.
  revert b. induction a as [|x a IH]; intros [|y b]; simpl; try congruence; auto.
  rewrite !orb_false_iff, !orb_true_iff, !andb_true_iff, !Nat.ltb_lt, !Nat.ltb_ge, !Nat.eqb_eq.
  intros Hne [H1 H2].
  destruct (Nat.eq_dec (nat_of_ascii x) (nat_of_ascii y)) as [E|E]; [|left; lia].
  right. split; [lia|]. apply IH.
  - intro Hab. apply Hne. f_equal; [|exact Hab].
    rewrite <- (ascii_nat_embedding x), <- (ascii_nat_embedding y), E. reflexivity.
  - destruct (str_ltb a b); [|reflexivity]. exfalso. apply andb_false_iff in H2.
    destruct H2 as [H2|H2]; [apply Nat.eqb_neq in H2; lia|discriminate].
Qed.

Lemma insert_sorted_strict x l :
  Sorted lt_str l -> ~ In x l -> Sorted lt_str (insert_sorted x l).
Proof.
  induction l as [|y l IH]; intros Hs Hn; simpl; [repeat constructor|].
  destruct (str_ltb y x) eqn:E.
  - apply Sorted_inv in Hs as [Hs Hh]. constructor.
    + apply IH; [exact Hs|intro; apply Hn; now right].
    + destruct l as [|z l]; simpl; [constructor; exact E|].
      destruct (str_ltb z x); constructor; [inversion Hh; assumption|exact E].
  - constructor; [exact Hs|]. constructor.
    apply str_ltb_total; [intro; apply Hn; now left|exact E].
Qed.

Lemma sorted_strict l : NoDup l -> Sorted lt_str (sorted l).
Proof.
  induction l as [|x l IH]; intro Hnd; simpl; [constructor|].
  inversion Hnd as [|? ? Hx Hnd']; subst.
  apply insert_sorted_strict; [exact (IH Hnd')|rewrite in_sorted; exact Hx].
Qed.

Lemma NoDup_set_add x st : NoDup st -> NoDup (set_add x st).
Proof.
  intro H. unfold set_add. destruct (existsb (str_eqb x) st) eqn:E; [exact H|].
  apply NoDup_app; [exact H|repeat constructor; intros []|].
  intros y Hy [<-|[]]. assert (existsb (str_eqb x) st = true)
    by (apply existsb_exists; exists x; split; [exact Hy|apply str_eqb_refl]).
  congruence.
Qed.

Lemma rm_get_add k k' v m :
  rm_get k (rm_add k' v m) = if str_eqb k k' then set_add v (rm_get k m) else rm_get k m.
Proof.
  induction m as [|[k0 st] m IH]; simpl.
  - destruct (str_eqb k k'); reflexivity.
  - destruct (str_eqb k' k0) eqn:E1; simpl.
    + apply str_eqb_true in E1. subst k0. destruct (str_eqb k k'); reflexivity.
    + rewrite IH. destruct (str_eqb k k0) eqn:E2; [|reflexivity].
      apply str_eqb_true in E2. subst k0. destruct (str_eqb k k') eqn:E3; [|reflexivity].
      apply str_eqb_true in E3. subst k'. rewrite str_eqb_refl in E1. discriminate.
Qed.

Lemma build_reverse_map_nodup tree inc courses k :
  NoDup (rm_get k (build_reverse_map tree inc courses)).
Proof.
  unfold build_reverse_map.
  assert (Hinv : forall m, (forall k, NoDup (rm_get k m)) ->
            forall k, NoDup (rm_get k (fold_left
              (fun reverse_map course =>
                 let course_code := extract_course_code_from_title (title course) in
                 match course_code with
                 | [] => reverse_map
                 | _ => fold_left
                          (fun m code => match code with [] => m | _ => rm_add code course_code m end)
                          (get_all_prerequisite_courses (tree course) inc) reverse_map
                 end) courses m))).
  { induction courses as [|c courses IH]; intros m Hm; simpl; [exact Hm|].
    apply IH. destruct (extract_course_code_from_title (title c)) as [|a cc]; [exact Hm|].
    generalize (get_all_prerequisite_courses (tree c) inc) as l. intro l.
    revert m Hm. induction l as [|code l IHl]; intros m Hm; simpl; [exact Hm|].
    apply IHl. destruct code as [|b code]; [exact Hm|].
    intro k'. rewrite rm_get_add. destruct (str_eqb k' (b :: code)); [apply NoDup_set_add|]; apply Hm. }
  apply Hinv. intro k'. constructor.
Qed.

Lemma sorted_unique l1 l2 :
  Sorted lt_str l1 -> Sorted lt_str l2 -> (forall x, In x l1 <-> In x l2) -> l1 = l2.
Proof.
  intros H1 H2 Hm.
  apply Sorted_StronglySorted in H1; [|intros a b c; apply str_ltb_trans].
  apply Sorted_StronglySorted in H2; [|intros a b c; apply str_ltb_trans].
  revert l2 H2 Hm. induction H1 as [|x l1 H1 IH Hx1]; intros l2 H2 Hm.
  - destruct l2 as [|y l2]; [reflexivity|]. exfalso. apply (proj2 (Hm y)). now left.
  - destruct H2 as [|y l2 H2 Hy2].
    + exfalso. apply (proj1 (Hm x)). now left.
    + assert (Exy : x = y).
      { destruct (proj1 (Hm x) (or_introl eq_refl)) as [->|Hx]; [reflexivity|].
        destruct (proj2 (Hm y) (or_introl eq_refl)) as [->|Hy]; [reflexivity|].
        rewrite Forall_forall in Hx1, Hy2.
        pose proof (str_ltb_trans _ _ _ (Hx1 y Hy) (Hy2 x Hx)) as Hxx.
        rewrite str_ltb_irrefl in Hxx. discriminate. }
      subst y. f_equal. apply IH; [exact H2|].
      intro z. split; intro Hz.
      * destruct (proj1 (Hm z) (or_intror Hz)) as [<-|Hz']; [|exact Hz'].
        rewrite Forall_forall in Hx1. pose proof (Hx1 x Hz) as Hzz.
        unfold lt_str in Hzz. rewrite str_ltb_irrefl in Hzz. discriminate.
      * destruct (proj2 (Hm z) (or_intror Hz)) as [<-|Hz']; [|exact Hz'].
        rewrite Forall_forall in Hy2. pose proof (Hy2 x Hz) as Hzz.
        unfold lt_str in Hzz. rewrite str_ltb_irrefl in Hzz. discriminate.
Qed.

Lemma in_reverse_field x k tree inc catalog :
  In x (sorted (rm_get k (build_reverse_map tree inc catalog))) ->
  x <> [] /\ exists c, In c catalog /\ code_of c = x.
Proof.
  rewrite in_sorted, in_build_reverse_map. intros [_ [Hx [c [Hc [Hcode _]]]]].
  split; [exact Hx|eauto].
Qed.

(** Every entry of [is_prerequisite_for] and [is_corequisite_for] is a
    code of four letters [A-Z] followed by four digits. *)
Theorem reverse_fields_are_course_codes (catalog : list course_rec) :
  Forall (fun e => Forall code8 (is_prerequisite_for e) /\ Forall code8 (is_corequisite_for e))
         (add_reverse_fields catalog).
Proof.
  unfold add_reverse_fields. apply Forall_forall. intros e He.
  apply in_map_iff in He as [P [<- _]]. unfold enhance. cbn [is_prerequisite_for is_corequisite_for].
  split; apply Forall_forall; intros x Hx;
    apply in_reverse_field in Hx as [Hne [c [_ <-]]];
    (destruct (extract_code_shape (title c)) as [E|S]; [unfold code_of in Hne; congruence|exact S]).
Qed.

(** [is_prerequisite_for] and [is_corequisite_for] are strictly
    increasing in Python's string order, so free of duplicates. *)
Theorem reverse_fields_strictly_sorted (catalog : list course_rec) :
  Forall (fun e => Sorted lt_str (is_prerequisite_for e) /\ Sorted lt_str (is_corequisite_for e))
         (add_reverse_fields catalog).
Proof.
  unfold add_reverse_fields. apply Forall_forall. intros e He.
  apply in_map_iff in He as [P [<- _]]. unfold enhance. cbn [is_prerequisite_for is_corequisite_for].
  split; apply sorted_strict, build_reverse_map_nodup.
Qed.

(** The two reverse-edge fields attached to a record do not depend on
    the order of the records in the catalog. *)
Theorem reverse_fields_ignore_catalog_order (catalog catalog' : list course_rec) (P : course_rec) :
  Permutation catalog catalog' ->
  enhance (build_reverse_prerequisite_map catalog) (build_reverse_corequisite_map catalog) P
  = enhance (build_reverse_prerequisite_map catalog') (build_reverse_corequisite_map catalog') P.
Proof.
  intro Hp. unfold enhance, build_reverse_prerequisite_map, build_reverse_corequisite_map.
  assert (Hm : forall tree inc k x,
             In x (rm_get k (build_reverse_map tree inc catalog))
             <-> In x (rm_get k (build_reverse_map tree inc catalog'))).
  { intros tree inc k x. rewrite !in_build_reverse_map. split.
    - intros [Hk [Hx [c [Hc Hrest]]]]. split; [exact Hk|]. split; [exact Hx|].
      exists c. split; [exact (Permutation_in _ Hp Hc)|exact Hrest].
    - intros [Hk [Hx [c [Hc Hrest]]]]. split; [exact Hk|]. split; [exact Hx|].
      exists c. split; [exact (Permutation_in _ (Permutation_sym Hp) Hc)|exact Hrest]. }
  f_equal; apply sorted_unique; try apply sorted_strict, build_reverse_map_nodup;
    intro x; rewrite !in_sorted; apply Hm.
Qed.

Lemma rm_get_build_nil tree inc catalog : rm_get [] (build_reverse_map tree inc catalog) = [].
Proof.
  destruct (rm_get [] (build_reverse_map tree inc catalog)) as [|x l] eqn:E; [reflexivity|].
  assert (Hx : In x (rm_get [] (build_reverse_map tree inc catalog))) by (rewrite E; now left).
  apply in_build_reverse_map in Hx as [Hk _]. congruence.
Qed.

(** A record whose title yields no course code gets empty
    [is_prerequisite_for] and [is_corequisite_for] fields. *)
Theorem no_title_code_no_reverse_entries (catalog : list course_rec) (P : course_rec) :
  code_of P = [] ->
  is_prerequisite_for (enhance (build_reverse_prerequisite_map catalog)
                               (build_reverse_corequisite_map catalog) P) = []
  /\ is_corequisite_for (enhance (build_reverse_prerequisite_map catalog)
                                 (build_reverse_corequisite_map catalog) P) = [].
Proof.
  intro H. unfold enhance. cbn [is_prerequisite_for is_corequisite_for].
  fold (code_of P). rewrite H. unfold build_reverse_prerequisite_map, build_reverse_corequisite_map.
  rewrite !rm_get_build_nil. split; reflexivity.
Qed.

(** The code of a record [C] is in the [is_corequisite_for] field of a
    record [P] (both with a code) exactly when some record with [C]'s
    code has [P]'s code among those collected, concurrent wrappers
    included, from its corequisites tree. *)
Theorem reverse_corequisites_by_join_key (catalog : list course_rec) (C P : course_rec) :
  code_of P <> [] -> code_of C <> [] ->
  (In (code_of C) (is_corequisite_for
         (enhance (build_reverse_prerequisite_map catalog)
                  (build_reverse_corequisite_map catalog) P))
   <-> exists C', In C' catalog /\ code_of C' = code_of C
                  /\ In (code_of P) (get_all_prerequisite_courses (ast_corequisites C') true)).
Proof.
  intros HP HC. unfold enhance. cbn [is_corequisite_for]. fold (code_of P).
  rewrite in_sorted. unfold build_reverse_corequisite_map.
  rewrite in_build_reverse_map. intuition.
Qed.

Lemma collect_children_modes l acc :
  Forall (fun n => collect true n = collect false n) l ->
  fold_left (fun courses child => set_update courses (collect true child)) l acc
  = fold_left (fun courses child => set_update courses (collect false child)) l acc.
Proof.
  intro H. revert acc. induction H as [|ch l Hch H IH]; intro acc; [reflexivity|].
  cbn [fold_left]. rewrite Hch. apply IH.
Qed.

Lemma collect_ptree n : ptree n -> collect true n = collect false n.
Proof.
  induction n as [c a b|l IHl|l IHl| |e IHe|c k IHc|c k] using node_ind'; intro Hp;
    inversion Hp as [? ? ?|l0 Hall|l0 Hall| |? He|? ? ? ?]; subst; cbn [collect]; try reflexivity.
  1,2: apply collect_children_modes; rewrite Forall_forall in IHl, Hall |- *;
       intros x Hx; exact (IHl x Hx (Hall x Hx)).
  exact (IHe He).
Qed.

(** On a prerequisites tree built by [parse],
    [get_all_prerequisite_courses] gives the same set with and without
    [include_corequisites]: such a tree has no concurrent wrapper. *)
Theorem parse_prerequisites_same_in_both_modes (fuel : nat) (p c : pystr) (a : prereq_ast) :
  parse fuel p c = Ok a ->
  get_all_prerequisite_courses (prerequisites a) true
  = get_all_prerequisite_courses (prerequisites a) false.
Proof.
  intro H. apply parse_prereq_ptree in H. destruct (prerequisites a) as [n|]; [|reflexivity].
  exact (collect_ptree n H).
Qed.

(** Every prerequisites tree [parse] returns has no [concurrent] node;
    its [course] leaves carry [is_concurrent] and [is_optional = false]
    and a code of four letters, whitespace other than spaces, and four
    digits; its [text_condition]s have one of the five categories, and
    category ["other"] only for a condition longer than five characters. *)
Theorem parse_prerequisites_tree_shape (fuel : nat) (p c : pystr) (a : prereq_ast) :
  parse fuel p c = Ok a -> ptree_opt (prerequisites a).
Proof. apply parse_prereq_ptree. Qed.

(** [extract_course_code_from_title] returns either the empty string or
    four letters [A-Z] followed by four digits. *)
Theorem extract_course_code_format (t : pystr) :
  extract_course_code_from_title t = [] \/ code8 (extract_course_code_from_title t).
Proof. apply extract_code_shape. Qed.

(** ** Witnesses *)

(** The AST a run of [parse] returned (an empty one when it raised). *)
Definition ast_of (m : py prereq_ast) : prereq_ast :=
  match m with Ok a => a | Raise _ => mk_ast None None [] None end.

Definition w_prereq : pystr :=
  s "CSCE 1001 and CSCE 1101 or MACT 2123 and junior standing, and concurrent with CSCE 4301".
Definition w_conc : pystr := s "CSCE 4302 or CSCE 4303".

Lemma parse_prerequisites_tree_shape_witness :
  ptree_opt (prerequisites (ast_of (parse 50 w_prereq w_conc))).
Proof. apply (parse_prerequisites_tree_shape 50 w_prereq w_conc). vm_compute. reflexivity. Defined.

Lemma parse_corequisites_shape_witness :
  coreq_shape (corequisites (ast_of (parse 50 w_prereq w_conc))).
Proof. apply (parse_corequisites_shape 50 w_prereq w_conc). vm_compute. reflexivity. Defined.

Lemma parse_blank_prerequisites_witness :
  parse 50 (s "   ") (s "CSCE 4301")
  = Ok (mk_ast None (parse_concurrent (s "CSCE 4301")) (s " | Concurrent: CSCE 4301") None).
Proof. apply (parse_blank_prerequisites 50 (s "   ") (s "CSCE 4301")). vm_compute. reflexivity. Defined.

Lemma parse_concurrent_only_text_witness :
  exists a, parse 50 (s "Concurrent with CSCE 4301") w_conc = Ok a /\ prerequisites a = None
    /\ corequisites a = merge_concurrent (parse_concurrent (strip (s "Concurrent with CSCE 4301")))
                                         (parse_concurrent w_conc).
Proof. apply (parse_concurrent_only_text 50). vm_compute. reflexivity. Defined.

Lemma parse_expression_unmatched_parens_diverge_witness :
  parse_expression 200 (s "CSCE 1001 ()") = Raise RecursionError.
Proof.
  apply (parse_expression_unmatched_parens_diverge (s "CSCE 1001 ()")).
  - discriminate.
  - vm_compute. reflexivity.
  - vm_compute. reflexivity.
  - vm_compute. reflexivity.
Defined.

Definition w_null_course : jobj :=
  [(s "title", JStr (s "CSCE 3301 - C")); (s "prerequisites", JNull)].

Lemma parse_all_first_non_string_aborts_witness :
  parse_all 50 (w_null_course :: c7_batch) = Raise UnboundLocalError.
Proof. apply parse_all_first_non_string_aborts. intro x. vm_compute. discriminate. Defined.

Lemma parse_all_stale_raw_text_witness :
  parse_all 50 [nth 1 c7_batch []; w_null_course]
  = Ok ([(nth 1 c7_batch [], stored_ast 50 (nth 1 c7_batch []));
         (w_null_course, mk_ast None None (s "CSCE 1001") (Some AttributeError))] ++ []).
Proof.
  apply (parse_all_stale_raw_text 50 (nth 1 c7_batch []) w_null_course []).
  - split; eexists; reflexivity.
  - intro x. vm_compute. discriminate.
  - constructor.
Defined.

Lemma main_loop_non_string_concurrent_witness :
  main_loop 50 [[(s "prerequisites", JStr (s " CSCE 1001 ")); (s "concurrent", JNum 3)]] None []
  = main_loop 50 [] (Some (s "CSCE 1001"))
      [([(s "prerequisites", JStr (s " CSCE 1001 ")); (s "concurrent", JNum 3)],
        mk_ast None None (s "CSCE 1001") (Some AttributeError))].
Proof.
  apply (main_loop_non_string_concurrent 50 _ [] None [] (s " CSCE 1001 ")).
  - reflexivity.
  - intro y. vm_compute. discriminate.
Defined.

Definition w_catalog : list course_rec :=
  [mk_course (s "CSCE 2303 - Computer Organization")
             (Some (mk_ast (Some (NCourse (s "CSCE1101") (Some false) (Some false)))
                           (Some (NConcurrent (NCourse (s "CSCE1102") None None) []))
                           (s "CSCE 1101") None));
   mk_course (s "CSCE 1101 - Fundamentals") None;
   mk_course (s "CSCE 1102 - Fundamentals Lab") None].

Lemma reverse_fields_ignore_catalog_order_witness :
  enhance (build_reverse_prerequisite_map w_catalog) (build_reverse_corequisite_map w_catalog)
          (nth 1 w_catalog (mk_course [] None))
  = enhance (build_reverse_prerequisite_map (rev w_catalog))
            (build_reverse_corequisite_map (rev w_catalog)) (nth 1 w_catalog (mk_course [] None)).
Proof. apply reverse_fields_ignore_catalog_order. apply Permutation_rev. Defined.

Lemma no_title_code_no_reverse_entries_witness :
  is_prerequisite_for (enhance (build_reverse_prerequisite_map w_catalog)
                               (build_reverse_corequisite_map w_catalog)
                               (mk_course (s "Special Topics") None)) = []
  /\ is_corequisite_for (enhance (build_reverse_prerequisite_map w_catalog)
                                 (build_reverse_corequisite_map w_catalog)
                                 (mk_course (s "Special Topics") None)) = [].
Proof. apply no_title_code_no_reverse_entries. vm_compute. reflexivity. Defined.

Lemma reverse_corequisites_by_join_key_witness :
  In (code_of (nth 0 w_catalog (mk_course [] None)))
     (is_corequisite_for (enhance (build_reverse_prerequisite_map w_catalog)
                                  (build_reverse_corequisite_map w_catalog)
                                  (nth 2 w_catalog (mk_course [] None))))
  <-> exists C', In C' w_catalog /\ code_of C' = code_of (nth 0 w_catalog (mk_course [] None))
        /\ In (code_of (nth 2 w_catalog (mk_course [] None)))
              (get_all_prerequisite_courses (ast_corequisites C') true).
Proof.
  apply reverse_corequisites_by_join_key; vm_compute; discriminate.
Defined.

Lemma parse_prerequisites_same_in_both_modes_witness :
  get_all_prerequisite_courses (prerequisites (ast_of (parse 50 w_prereq w_conc))) true
  = get_all_prerequisite_courses (prerequisites (ast_of (parse 50 w_prereq w_conc))) false.
Proof. apply (parse_prerequisites_same_in_both_modes 50 w_prereq w_conc). vm_compute. reflexivity. Defined.
